(** * Voki Toki: the room relay (server/index.js) and the push-to-talk
      client (client/src/App.jsx)

    A shallow embedding of the WebSocket relay's room registry and message
    handler, and of the client's playback chain, capture handlers and
    chunk-interval arithmetic, with the properties of the design document
    stated over them. *)

From Stdlib Require Import ZArith String Ascii List Bool Lia.
From stdpp Require Import base option list gmap strings.

(** ** JavaScript values that reach the server *)

(** A connection is a [ws] socket object; only its identity and its
    [readyState] matter to the relay. *)
Definition socket := nat.

Inductive ready_state := CONNECTING | OPEN | CLOSING | CLOSED.

Global Instance ready_state_eq_dec : EqDecision ready_state.
Proof. solve_decision. Defined.

(** The result of [JSON.parse]: numbers are kept as their lexeme, the relay
    never computes with them. *)
#[warnings="-register-all"]
Inductive json :=
  | JNull
  | JBool (b : bool)
  | JNum (lexeme : string)
  | JStr (s : string)
  | JArr (items : list json)
  | JObj (fields : list (string * json)).

(** A value read from a property: [None] is [undefined]. *)
Definition jsval := option json.

Inductive exn := TypeError | SyntaxError.

Inductive completion (A : Type) :=
  | Normal (a : A)
  | Throw (e : exn).
Arguments Normal {A} a.
Arguments Throw {A} e.

Fixpoint assoc (k : string) (fields : list (string * json)) : jsval :=
  match fields with
  | [] => None
  | (k', v) :: rest =>
      match assoc k rest with
      | Some v' => Some v'
      | None => if decide (k' = k) then Some v else None
      end
  end.

(** [payload.k] for the two keys the handler reads, [type] and [room]:
    reading a property of [null] throws, a primitive or an array has neither
    property, an object yields its own one (the last of duplicated keys, as
    [JSON.parse] keeps it). *)
Definition get_prop (payload : json) (k : string) : completion jsval :=
  match payload with
  | JNull => Throw TypeError
  | JObj fields => Normal (assoc k fields)
  | _ => Normal None
  end.

(** ** A reader for JSON text

    [JSON.parse] belongs to the runtime; the handler below takes it as a
    parameter.  This reader of the ECMA-404 grammar instantiates it where a
    concrete text is evaluated. *)
Module JsonText.

Definition chars := list ascii.

Definition is_ws (c : ascii) : bool :=
  let n := N_of_ascii c in
  ((n =? 32) || (n =? 9) || (n =? 10) || (n =? 13))%N.

Fixpoint skip_ws (s : chars) : chars :=
  match s with
  | c :: rest => if is_ws c then skip_ws rest else s
  | [] => []
  end.

Definition is_digit (c : ascii) : bool :=
  let n := N_of_ascii c in ((48 <=? n) && (n <=? 57))%N.

Fixpoint digits (s : chars) : chars * chars :=
  match s with
  | c :: rest =>
      if is_digit c then let '(ds, r) := digits rest in (c :: ds, r) else ([], s)
  | [] => ([], [])
  end.

Definition digits1 (s : chars) : option (chars * chars) :=
  match digits s with
  | ([], _) => None
  | r => Some r
  end.

Definition is_char (n : N) (c : ascii) : bool := (N_of_ascii c =? n)%N.

(** An optional minus, an integer part without leading zeros, an optional
    fraction and an optional exponent. *)
Definition number (s : chars) : option (chars * chars) :=
  let '(sign, s1) :=
    match s with
    | c :: r => if is_char 45 c then ([c], r) else ([], s)
    | [] => ([], s)
    end in
  int ← match s1 with
        | c :: r =>
            if is_char 48 c then Some ([c], r)
            else if is_digit c then Some (digits s1)
            else None
        | [] => None
        end;
  let '(ip, s2) := int in
  frac ← match s2 with
         | c :: r =>
             if is_char 46 c
             then '(ds, r') ← digits1 r; Some (c :: ds, r')
             else Some ([], s2)
         | [] => Some ([], s2)
         end;
  let '(fp, s3) := frac in
  ex ← match s3 with
       | c :: r =>
           if is_char 101 c || is_char 69 c then
             let '(sg, r1) :=
               match r with
               | d :: r' => if is_char 43 d || is_char 45 d then ([d], r') else ([], r)
               | [] => ([], r)
               end in
             '(ds, r2) ← digits1 r1; Some (c :: sg ++ ds, r2)
           else Some ([], s3)
       | [] => Some ([], s3)
       end;
  let '(ep, s4) := ex in
  Some (sign ++ ip ++ fp ++ ep, s4).

Definition hex (c : ascii) : option N :=
  let n := N_of_ascii c in
  if ((48 <=? n) && (n <=? 57))%N then Some (n - 48)%N
  else if ((97 <=? n) && (n <=? 102))%N then Some (n - 87)%N
  else if ((65 <=? n) && (n <=? 70))%N then Some (n - 55)%N
  else None.

(** A string body yields bytes copied from the text and UTF-16 code units
    written as [\uXXXX]. *)
Inductive unit16 := Byte8 (c : ascii) | Unit16 (u : N).

Definition simple_escape (c : ascii) : option N :=
  let n := N_of_ascii c in
  if (n =? 34)%N then Some 34%N
  else if (n =? 92)%N then Some 92%N
  else if (n =? 47)%N then Some 47%N
  else if (n =? 98)%N then Some 8%N
  else if (n =? 102)%N then Some 12%N
  else if (n =? 110)%N then Some 10%N
  else if (n =? 114)%N then Some 13%N
  else if (n =? 116)%N then Some 9%N
  else None.

Fixpoint str_body (s : chars) : option (list unit16 * chars) :=
  match s with
  | [] => None
  | c :: rest =>
      if is_char 34 c then Some ([], rest)
      else if is_char 92 c then
        match rest with
        | e :: rest1 =>
            match simple_escape e with
            | Some n => '(us, r) ← str_body rest1; Some (Unit16 n :: us, r)
            | None =>
                if is_char 117 e then
                  match rest1 with
                  | h1 :: h2 :: h3 :: h4 :: rest2 =>
                      a ← hex h1; b ← hex h2; c' ← hex h3; d ← hex h4;
                      '(us, r) ← str_body rest2;
                      Some (Unit16 (a * 4096 + b * 256 + c' * 16 + d)%N :: us, r)
                  | _ => None
                  end
                else None
            end
        | [] => None
        end
      else if (N_of_ascii c <? 32)%N then None
      else '(us, r) ← str_body rest; Some (Byte8 c :: us, r)
  end.

Definition utf8 (cp : N) : chars :=
  map ascii_of_N
    (if (cp <? 128)%N then [cp]
     else if (cp <? 2048)%N then [192 + cp / 64; 128 + cp mod 64]
     else if (cp <? 65536)%N then
       [224 + cp / 4096; 128 + (cp / 64) mod 64; 128 + cp mod 64]
     else
       [240 + cp / 262144; 128 + (cp / 4096) mod 64;
        128 + (cp / 64) mod 64; 128 + cp mod 64])%N.

Definition is_high (u : N) : bool := ((55296 <=? u) && (u <=? 56319))%N.
Definition is_low (u : N) : bool := ((56320 <=? u) && (u <=? 57343))%N.

Fixpoint encode (us : list unit16) : chars :=
  match us with
  | [] => []
  | Byte8 c :: rest => c :: encode rest
  | Unit16 hi :: rest =>
      match rest with
      | Unit16 lo :: rest' =>
          if is_high hi && is_low lo
          then utf8 (65536 + (hi - 55296) * 1024 + (lo - 56320))%N ++ encode rest'
          else utf8 hi ++ encode rest
      | _ => utf8 hi ++ encode rest
      end
  end.

Definition str (s : chars) : option (string * chars) :=
  '(us, r) ← str_body s; Some (string_of_list_ascii (encode us), r).

Fixpoint strip (word s : chars) : option chars :=
  match word, s with
  | [], _ => Some s
  | w :: word', c :: s' => if decide (w = c) then strip word' s' else None
  | _ :: _, [] => None
  end.

Definition keyword (word : string) (v : json) (s : chars) : option (json * chars) :=
  r ← strip (list_ascii_of_string word) s; Some (v, r).

(** [value] reads one value at the head of [s]; [elements] and [members]
    read the rest of an array or object once its first item is due. *)
Fixpoint value (fuel : nat) (s : chars) : option (json * chars) :=
  match fuel with
  | O => None
  | S fuel' =>
      match s with
      | [] => None
      | c :: rest =>
          if is_char 123 c then
            match skip_ws rest with
            | d :: rest' =>
                if is_char 125 d then Some (JObj [], rest')
                else '(fs, r) ← members fuel' (d :: rest'); Some (JObj fs, r)
            | [] => None
            end
          else if is_char 91 c then
            match skip_ws rest with
            | d :: rest' =>
                if is_char 93 d then Some (JArr [], rest')
                else '(vs, r) ← elements fuel' (d :: rest'); Some (JArr vs, r)
            | [] => None
            end
          else if is_char 34 c then
            '(t, r) ← str rest; Some (JStr t, r)
          else if is_char 116 c then keyword "true" (JBool true) s
          else if is_char 102 c then keyword "false" (JBool false) s
          else if is_char 110 c then keyword "null" JNull s
          else '(lex, r) ← number s; Some (JNum (string_of_list_ascii lex), r)
      end
  end
with elements (fuel : nat) (s : chars) : option (list json * chars) :=
  match fuel with
  | O => None
  | S fuel' =>
      '(v, r) ← value fuel' s;
      match skip_ws r with
      | c :: rest =>
          if is_char 44 c then
            '(vs, r') ← elements fuel' (skip_ws rest); Some (v :: vs, r')
          else if is_char 93 c then Some ([v], rest)
          else None
      | [] => None
      end
  end
with members (fuel : nat) (s : chars) : option (list (string * json) * chars) :=
  match fuel with
  | O => None
  | S fuel' =>
      match s with
      | q :: s1 =>
          if is_char 34 q then
            '(k, r) ← str s1;
            match skip_ws r with
            | c :: r1 =>
                if is_char 58 c then
                  '(v, r2) ← value fuel' (skip_ws r1);
                  match skip_ws r2 with
                  | e :: rest =>
                      if is_char 44 e then
                        '(fs, r') ← members fuel' (skip_ws rest); Some ((k, v) :: fs, r')
                      else if is_char 125 e then Some ([(k, v)], rest)
                      else None
                  | [] => None
                  end
                else None
            | [] => None
            end
          else None
      | [] => None
      end
  end.

Definition JSON_parse (text : string) : option json :=
  let s := list_ascii_of_string text in
  '(v, r) ← value (S (length s)) (skip_ws s);
  match skip_ws r with
  | [] => Some v
  | _ :: _ => None
  end.

(** JSON text is written here with apostrophes standing for the double
    quotes. *)
Definition quoted (s : string) : string :=
  string_of_list_ascii
    (map (fun c => if is_char 39 c then ascii_of_N 34 else c) (list_ascii_of_string s)).

End JsonText.

(** ** String.prototype.trim

    Strings are kept as their UTF-8 bytes.  [trim] strips the ECMAScript
    WhiteSpace and LineTerminator code points from both ends. *)

Definition of_bytes (l : list nat) : string :=
  string_of_list_ascii (map ascii_of_nat l).

Definition white_space : list string :=
  map of_bytes
    [ [9]; [10]; [11]; [12]; [13]; [32];
      [194; 160];
      [225; 154; 128];
      [226; 128; 128]; [226; 128; 129]; [226; 128; 130]; [226; 128; 131];
      [226; 128; 132]; [226; 128; 133]; [226; 128; 134]; [226; 128; 135];
      [226; 128; 136]; [226; 128; 137]; [226; 128; 138];
      [226; 128; 168]; [226; 128; 169]; [226; 128; 175];
      [226; 129; 159];
      [227; 128; 128];
      [239; 187; 191] ].

Fixpoint strip_prefix (p s : string) : option string :=
  match p, s with
  | EmptyString, _ => Some s
  | String a p', String b s' =>
      if decide (a = b) then strip_prefix p' s' else None
  | String _ _, EmptyString => None
  end.

Fixpoint strip_any (ps : list string) (s : string) : option string :=
  match ps with
  | [] => None
  | p :: ps' =>
      match strip_prefix p s with
      | Some s' => Some s'
      | None => strip_any ps' s
      end
  end.

Fixpoint trim_left (fuel : nat) (ws : list string) (s : string) : string :=
  match fuel with
  | O => s
  | S fuel' =>
      match strip_any ws s with
      | Some s' => trim_left fuel' ws s'
      | None => s
      end
  end.

Definition string_rev (s : string) : string :=
  string_of_list_ascii (rev (list_ascii_of_string s)).

Definition trimStart (s : string) : string :=
  trim_left (String.length s) white_space s.

Definition trimEnd (s : string) : string :=
  string_rev
    (trim_left (String.length s) (map string_rev white_space) (string_rev s)).

Definition trim (s : string) : string := trimEnd (trimStart s).

(** ** What the server sends *)

(** The object handed to [sendJson]; [JSON.stringify] of it goes out as a
    text frame. *)
Inductive payload :=
  | RoomState (room : string) (count : nat) (limit : nat)
  | ErrorMsg (code : string) (message : string).

Definition Buffer := list Byte.byte.

Inductive frame :=
  | Json (p : payload)
  | Raw (data : Buffer) (binary : bool).

(** One call of [socket.send]: the receiving socket and the frame. *)
Definition sent : Type := socket * frame.

(** ** The registry and the handler monad *)

(** [rooms] maps a room id to its [Set] of sockets, kept in insertion order
    as a JS [Set] iterates it; [socketToRoom] is the back reference. *)
Record registry := Registry {
  rooms : gmap string (list socket);
  socketToRoom : gmap socket string
}.

Definition empty_registry : registry := Registry ∅ ∅.

Record run (A : Type) := Run {
  outcome : completion A;
  final : registry;
  sends : list sent
}.
Arguments Run {A} outcome final sends.
Arguments outcome {A} r.
Arguments final {A} r.
Arguments sends {A} r.

(** State over the registry, a log of the frames sent, and exceptions. *)
Definition M (A : Type) : Type := registry -> run A.

Definition ret {A} (a : A) : M A := fun st => Run (Normal a) st [].

Definition bind {A B} (m : M A) (k : A -> M B) : M B := fun st =>
  match m st with
  | Run (Normal a) st' out =>
      match k a st' with
      | Run o st'' out' => Run o st'' (out ++ out')
      end
  | Run (Throw e) st' out => Run (Throw e) st' out
  end.

Definition throw {A} (e : exn) : M A := fun st => Run (Throw e) st [].

Definition try_catch {A} (m : M A) (handler : exn -> M A) : M A := fun st =>
  match m st with
  | Run (Normal a) st' out => Run (Normal a) st' out
  | Run (Throw e) st' out =>
      match handler e st' with
      | Run o st'' out' => Run o st'' (out ++ out')
      end
  end.

Definition gets {A} (f : registry -> A) : M A := fun st => Run (Normal (f st)) st [].

Definition modify (f : registry -> registry) : M unit :=
  fun st => Run (Normal tt) (f st) [].

Definition send (to : socket) (f : frame) : M unit :=
  fun st => Run (Normal tt) st [(to, f)].

Definition lift {A} (c : completion A) : M A :=
  match c with
  | Normal a => ret a
  | Throw e => throw e
  end.

Declare Scope js_scope.
Delimit Scope js_scope with js.
Notation "x <- c1 ;; c2" := (bind c1 (fun x => c2))
  (at level 100, c1 at next level, right associativity) : js_scope.
Notation "c1 ;;; c2" := (bind c1 (fun _ => c2))
  (at level 100, right associativity) : js_scope.
Open Scope js_scope.

(** [for (const x of xs) body(x)] over a collection the body does not change. *)
Fixpoint for_of {A} (xs : list A) (body : A -> M unit) : M unit :=
  match xs with
  | [] => ret tt
  | x :: xs' => body x ;;; for_of xs' body
  end.

(** [Set.prototype.add], [delete] and [size] on the insertion-ordered list. *)
Definition Set_add (x : socket) (s : list socket) : list socket :=
  if decide (x ∈ s) then s else s ++ [x].

Definition Set_delete (x : socket) (s : list socket) : list socket :=
  filter (fun y => y ≠ x) s.

Definition ROOM_LIMIT : nat := 2.

Section Server.

(** The [readyState] of every socket, owned by the transport. *)
Variable readyState : socket -> ready_state.

(** [JSON.parse] on the text of a frame; [None] when it throws. *)
Variable JSON_parse : string -> option json.

Definition sendJson (socket : socket) (p : payload) : M unit :=
  if decide (readyState socket = OPEN) then send socket (Json p) else ret tt.

Definition getRoomSet (room : string) : M (list socket) :=
  has <- gets (fun st => rooms st !! room) ;;
  match has with
  | Some members => ret members
  | None =>
      modify (fun st => Registry (<[room := []]> (rooms st)) (socketToRoom st)) ;;;
      ret []
  end.

Definition leaveRoom (socket : socket) : M (option string) :=
  room <- gets (fun st => socketToRoom st !! socket) ;;
  match room with
  | None => ret None
  | Some room =>
      if decide (room = ""%string) then ret None else
      members <- gets (fun st => rooms st !! room) ;;
      match members with
      | Some members =>
          let members := Set_delete socket members in
          modify (fun st => Registry (<[room := members]> (rooms st)) (socketToRoom st)) ;;;
          if decide (length members = 0)
          then modify (fun st => Registry (delete room (rooms st)) (socketToRoom st))
          else for_of members (fun peer =>
                 sendJson peer (RoomState room (length members) ROOM_LIMIT))
      | None => ret tt
      end ;;;
      modify (fun st => Registry (rooms st) (delete socket (socketToRoom st))) ;;;
      ret (Some room)
  end.

(** [room?.trim()]: [undefined] for a nullish room, the trimmed string for
    a string, a TypeError for anything else (it has no [trim] method). *)
Definition optional_trim (room : jsval) : M (option string) :=
  match room with
  | None | Some JNull => ret None
  | Some (JStr s) => ret (Some (trim s))
  | Some _ => throw TypeError
  end.

Definition joinRoom (socket : socket) (room : jsval) : M unit :=
  cleanRoom <- optional_trim room ;;
  match cleanRoom with
  | None => sendJson socket (ErrorMsg "invalid-room" "Room is required.")
  | Some cleanRoom =>
      if decide (cleanRoom = ""%string)
      then sendJson socket (ErrorMsg "invalid-room" "Room is required.")
      else
        leaveRoom socket ;;;
        members <- getRoomSet cleanRoom ;;
        if decide (ROOM_LIMIT ≤ length members)
        then sendJson socket (ErrorMsg "room-full" "Room is full.")
        else
          let members := Set_add socket members in
          modify (fun st => Registry (<[cleanRoom := members]> (rooms st)) (socketToRoom st)) ;;;
          modify (fun st => Registry (rooms st) (<[socket := cleanRoom]> (socketToRoom st))) ;;;
          for_of members (fun peer =>
            sendJson peer (RoomState cleanRoom (length members) ROOM_LIMIT))
  end.

Definition broadcastToRoom (sender : socket) (data : Buffer) (isBinary : bool) : M unit :=
  room <- gets (fun st => socketToRoom st !! sender) ;;
  match room with
  | None => ret tt
  | Some room =>
      if decide (room = ""%string) then ret tt else
      members <- gets (fun st => rooms st !! room) ;;
      match members with
      | None => ret tt
      | Some members =>
          for_of members (fun client =>
            if decide (client = sender ∨ readyState client ≠ OPEN)
            then ret tt
            else send client (Raw data isBinary))
      end
  end.

Definition toString (data : Buffer) : string := string_of_list_byte data.

Definition parse (text : string) : M json :=
  match JSON_parse text with
  | Some v => ret v
  | None => throw SyntaxError
  end.

Definition is_type (t : jsval) (name : string) : bool :=
  match t with
  | Some (JStr s) => bool_decide (s = name)
  | _ => false
  end.

(** The body of the [try] block: [true] when it ended in [return]. *)
Definition intercept (socket : socket) (data : Buffer) : M bool :=
  let text := toString data in
  payload <- parse text ;;
  type <- lift (get_prop payload "type") ;;
  if is_type type "join" then
    room <- lift (get_prop payload "room") ;;
    joinRoom socket room ;;; ret true
  else if is_type type "leave" then
    leaveRoom socket ;;; ret true
  else if is_type type "audio-config" then
    broadcastToRoom socket data false ;;; ret true
  else ret false.

(** [socket.on('message', (data, isBinary) => ...)] *)
Definition on_message (socket : socket) (data : Buffer) (isBinary : bool) : M unit :=
  returned <-
    (if negb isBinary
     then try_catch (intercept socket data) (fun _ => ret false)
     else ret false) ;;
  if (returned : bool) then ret tt else broadcastToRoom socket data isBinary.

(** [socket.on('close', ...)] *)
Definition on_close (socket : socket) : M unit :=
  leaveRoom socket ;;; ret tt.

End Server.

(** ** Traces of connection events *)

(** An event of one connection, with the [readyState] of all sockets at
    the time the handler runs. *)
Inductive event :=
  | Message (readyState : socket -> ready_state) (socket : socket)
            (data : Buffer) (isBinary : bool)
  | Close (readyState : socket -> ready_state) (socket : socket).

Definition handle (JSON_parse : string -> option json) (ev : event) : M unit :=
  match ev with
  | Message rs s data isBinary => on_message rs JSON_parse s data isBinary
  | Close rs s => on_close rs s
  end.

(** The registry after the handlers of [evs] ran in order, starting from the
    empty maps of a fresh server. *)
Definition after (JSON_parse : string -> option json) (evs : list event) : registry :=
  fold_left (fun st ev => final (handle JSON_parse ev st)) evs empty_registry.

(** The text frame [{"type":"join","room":r}] for a room id without quotes
    or escapes. *)
Definition join_text (r : string) : Buffer :=
  list_byte_of_string (JsonText.quoted ("{'type':'join','room':'" +:+ r +:+ "'}")).

Definition all_open : socket -> ready_state := fun _ => OPEN.

(** The sends of a loop of [sendJson] or [send] over [members]: one frame
    per member whose transport is open, in iteration order. *)
Definition deliveries (readyState : socket -> ready_state)
    (members : list socket) (f : frame) : list sent :=
  map (fun peer => (peer, f)) (filter (fun peer => readyState peer = OPEN) members).

(** Agreement of the two maps: what every reachable registry satisfies. *)
Record consistent (st : registry) : Prop := Consistent {
  rooms_nodup : ∀ r m, rooms st !! r = Some m → NoDup m;
  rooms_size : ∀ r m, rooms st !! r = Some m → 1 ≤ length m ≤ ROOM_LIMIT;
  rooms_back : ∀ r m s, rooms st !! r = Some m → s ∈ m → socketToRoom st !! s = Some r;
  back_rooms : ∀ s r, socketToRoom st !! s = Some r →
                 r ≠ ""%string ∧ ∃ m, rooms st !! r = Some m ∧ s ∈ m
}.

Definition invalid_room : payload := ErrorMsg "invalid-room" "Room is required.".
Definition room_full : payload := ErrorMsg "room-full" "Room is full.".

(** A room that is neither nullish nor a string has no [trim] method. *)
Definition no_trim (room : jsval) : Prop :=
  match room with
  | Some (JBool _) | Some (JNum _) | Some (JArr _) | Some (JObj _) => True
  | _ => False
  end.

(** The members of the target room once [c] itself is taken out. *)
Definition peers_of (c : socket) (st : registry) (R : string) : list socket :=
  Set_delete c (default [] (rooms st !! R)).

(** A trace used to instantiate the statements: sockets 1 and 2 join room
    [abc], socket 3 joins room [x]. *)
Definition two_in_abc : list event :=
  [ Message all_open 1 (join_text "abc") false;
    Message all_open 2 (join_text " abc ") false;
    Message all_open 3 (join_text "x") false ].

Definition chunk : Buffer := list_byte_of_string "OggS".

Definition join_number : Buffer :=
  list_byte_of_string (JsonText.quoted "{'type':'join','room':5}").

(** * The client (App.jsx) *)

(** ** The playback chain of [socket.onmessage] *)
Module Playback.

(** Every binary message appends one [then] callback to
    [playQueueRef.current].  A slot is [Waiting] until its callback runs,
    [Playing] once the callback created the [Audio] and called [play], and
    [Settled] once [resolve] was called for it. *)
Inductive slot_state := Waiting | Playing | Settled.

#[global] Instance slot_state_eq_dec : EqDecision slot_state.
Proof. solve_decision. Defined.

Record slot := Slot { blob : Buffer; mime : string; status : slot_state }.

(** What the timeline records: [play] called on the audio of slot [i], and
    the promise of slot [i] resolved. *)
Inductive mark := Started (i : nat) | Finished (i : nat).

Record queue := Queue { slots : list slot; timeline : list mark }.

(** [useRef(Promise.resolve())]: a chain with no callback yet. *)
Definition empty : queue := Queue [] [].

Fixpoint first_unsettled (l : list slot) : nat :=
  match l with
  | Slot _ _ Settled :: rest => S (first_unsettled rest)
  | _ => 0
  end.

(** The microtask checkpoint after a handler: the callback of a slot runs
    once the promise before it is fulfilled, that is once all slots before
    it are settled. *)
Definition drain (q : queue) : queue :=
  let i := first_unsettled (slots q) in
  match slots q !! i with
  | Some (Slot b m Waiting) =>
      Queue (<[i := Slot b m Playing]> (slots q)) (timeline q ++ [Started i])
  | _ => q
  end.

(** The binary branch of [socket.onmessage]: the blob is chained and the
    handler returns. *)
Definition enqueue (data : Buffer) (mime : string) (q : queue) : queue :=
  drain (Queue (slots q ++ [Slot data mime Waiting]) (timeline q)).

(** [resolve()] of slot [i], called from [onended], from [onerror] and from
    the rejection handler of [play()]; only the first call counts. *)
Definition resolve (i : nat) (q : queue) : queue :=
  match slots q !! i with
  | Some (Slot b m Playing) =>
      drain (Queue (<[i := Slot b m Settled]> (slots q)) (timeline q ++ [Finished i]))
  | _ => q
  end.

Inductive event :=
  | Binary (data : Buffer) (mime : string)
  | Ended (i : nat)
  | Errored (i : nat)
  | PlayRejected (i : nat).

Definition step (q : queue) (ev : event) : queue :=
  match ev with
  | Binary data mime => enqueue data mime q
  | Ended i | Errored i | PlayRejected i => resolve i q
  end.

Definition run (evs : list event) : queue := fold_left step evs empty.

(** Slots [0 .. n-1] each started and finished, one after the other. *)
Fixpoint chronicle (n : nat) : list mark :=
  match n with
  | O => []
  | S n' => chronicle n' ++ [Started n'; Finished n']
  end.

Definition status_at (q : queue) (i : nat) : option slot_state :=
  status <$> slots q !! i.

Definition content (s : slot) : Buffer * string := (blob s, mime s).

(** The blobs of the binary messages among [evs], in arrival order. *)
Definition arrivals (evs : list event) : list (Buffer * string) :=
  omap (fun ev => match ev with Binary d m => Some (d, m) | _ => None end) evs.

(** The statuses along the chain: [k] settled slots, then either nothing or
    one playing slot followed by [n] waiting ones; the timeline is the
    chronicle of the settled slots plus the start of the playing one. *)
Definition chain_shape (k n : nat) (playing : bool) (q : queue) : Prop :=
  (status <$> slots q)
    = replicate k Settled ++ (if playing then Playing :: replicate n Waiting else []) ∧
  timeline q = chronicle k ++ (if playing then [Started k] else []).

End Playback.

(** ** The capture handlers: [startRecording], [stopRecording] and the
       recorder callbacks *)
Module Capture.

(** JS numbers as far as the chunk interval needs them: whole milliseconds,
    and [NaN]. *)
Inductive number := NaN | Num (z : Z).

#[global] Instance number_eq_dec : EqDecision number.
Proof. solve_decision. Defined.

Definition truthy (n : number) : bool :=
  match n with
  | NaN => false
  | Num z => negb (z =? 0)%Z
  end.

(** [a || b] *)
Definition or_else (a b : number) : number := if truthy a then a else b.

(** [Math.max(a, b)] *)
Definition Math_max (a b : number) : number :=
  match a, b with
  | Num x, Num y => Num (Z.max x y)
  | _, _ => NaN
  end.

(** [Number(timeslice) || 250], the [timeSliceMs] field of the
    [audio-config] message; [n] is [Number(timeslice)]. *)
Definition timeSliceMs (n : number) : number := or_else n (Num 250).

(** [Math.max(50, Number(timeslice) || 250)], the argument of
    [recorder.start]. *)
Definition start_interval (n : number) : number :=
  Math_max (Num 50) (or_else n (Num 250)).

(** [MediaRecorder.state]; [pause] is never called. *)
Inductive recorder_state := inactive | recording.

#[global] Instance recorder_state_eq_dec : EqDecision recorder_state.
Proof. solve_decision. Defined.

(** A [MediaRecorder]: its state, the stream its callbacks close over, the
    interval [start] was called with, and whether [stop()] or an error left
    a [stop] event to be fired. *)
Record recorder := Recorder {
  state : recorder_state;
  stream : nat;
  interval : option number;
  stopping : bool
}.

(** What goes out on the socket: the [audio-config] text message (its
    [timeSliceMs] field) and the binary chunks. *)
Inductive outgoing :=
  | AudioConfig (timeSliceMs : number)
  | Chunk (data : Buffer).

Record client := Client {
  isRecording : bool;
  timeslice : number;
  ws : ready_state;
  recorderRef : option nat;
  streamRef : option nat;
  recorders : list recorder;
  tracks : list bool;
  acquiring : list number;
  outbox : list outgoing
}.

(** The component once mounted: [connectWs] has created the socket. *)
Definition mounted : client :=
  Client false (Num 250) CONNECTING None None [] [] [] [].

Definition set_isRecording (b : bool) (c : client) : client :=
  Client b (timeslice c) (ws c) (recorderRef c) (streamRef c)
         (recorders c) (tracks c) (acquiring c) (outbox c).

(** [stream.getTracks().forEach((track) => track.stop())] *)
Definition stop_tracks (s : nat) (c : client) : client :=
  Client (isRecording c) (timeslice c) (ws c) (recorderRef c) (streamRef c)
         (recorders c) (<[s := false]> (tracks c)) (acquiring c) (outbox c).

Definition set_streamRef (s : option nat) (c : client) : client :=
  Client (isRecording c) (timeslice c) (ws c) (recorderRef c) s
         (recorders c) (tracks c) (acquiring c) (outbox c).

Definition set_recorder (r : nat) (rec : recorder) (c : client) : client :=
  Client (isRecording c) (timeslice c) (ws c) (recorderRef c) (streamRef c)
         (<[r := rec]> (recorders c)) (tracks c) (acquiring c) (outbox c).

(** [wsRef.current.send]: throws while the socket is connecting, goes out
    when it is open, is dropped when it is closing or closed. *)
Definition ws_send (m : outgoing) (c : client) : option client :=
  match ws c with
  | CONNECTING => None
  | OPEN =>
      Some (Client (isRecording c) (timeslice c) (ws c) (recorderRef c) (streamRef c)
                   (recorders c) (tracks c) (acquiring c) (outbox c ++ [m]))
  | _ => Some c
  end.

(** [recorder && recorder.state !== 'inactive'] *)
Definition active_recorder (c : client) : option (nat * recorder) :=
  match recorderRef c with
  | Some r =>
      match recorders c !! r with
      | Some rec => if decide (state rec = inactive) then None else Some (r, rec)
      | None => None
      end
  | None => None
  end.

Definition stopRecording (c : client) : client :=
  match active_recorder c with
  | Some (r, rec) =>
      set_recorder r (Recorder inactive (stream rec) (interval rec) true) c
  | None =>
      let c :=
        match streamRef c with
        | Some s => set_streamRef None (stop_tracks s c)
        | None => c
        end in
      set_isRecording false c
  end.

(** [startRecording] up to its [await]: the call of [getUserMedia] is left
    pending with the [timeslice] the closure saw. *)
Definition startRecording (c : client) : client :=
  if isRecording c then c
  else if decide (ws c = OPEN) then
    Client (isRecording c) (timeslice c) (ws c) (recorderRef c) (streamRef c)
           (recorders c) (tracks c) (acquiring c ++ [timeslice c]) (outbox c)
  else c.

(** [startRecording] after its [await] when [getUserMedia] resolved with a
    stream; [recorder_ok] tells whether [new MediaRecorder] returned. *)
Definition granted (k : nat) (recorder_ok : bool) (c : client) : client :=
  match acquiring c !! k with
  | None => c
  | Some n =>
      let s := length (tracks c) in
      let c :=
        Client (isRecording c) (timeslice c) (ws c) (recorderRef c) (Some s)
               (recorders c) (tracks c ++ [true]) (delete k (acquiring c)) (outbox c) in
      if recorder_ok then
        let r := length (recorders c) in
        let c :=
          Client (isRecording c) (timeslice c) (ws c) (Some r) (streamRef c)
                 (recorders c ++ [Recorder inactive s None false])
                 (tracks c) (acquiring c) (outbox c) in
        match ws_send (AudioConfig (timeSliceMs n)) c with
        | Some c =>
            set_isRecording true
              (set_recorder r (Recorder recording s (Some (start_interval n)) false) c)
        | None => stop_tracks s c
        end
      else stop_tracks s c
  end.

(** [startRecording] after its [await] when [getUserMedia] rejected. *)
Definition denied (k : nat) (c : client) : client :=
  Client (isRecording c) (timeslice c) (ws c) (recorderRef c) (streamRef c)
         (recorders c) (tracks c) (delete k (acquiring c)) (outbox c).

(** [recorder.ondataavailable] *)
Definition ondataavailable (data : Buffer) (c : client) : client :=
  if decide (length data = 0) then c
  else if decide (ws c = OPEN) then default c (ws_send (Chunk data) c)
  else c.

(** [recorder.onstop] of a recorder over stream [s] *)
Definition onstop (s : nat) (c : client) : client :=
  set_isRecording false (set_streamRef None (stop_tracks s c)).

(** [recorder.onerror] of a recorder over stream [s] *)
Definition onerror (s : nat) (c : client) : client :=
  set_isRecording false (set_streamRef None (stop_tracks s c)).

Inductive event :=
  | StartIntent
  | StopIntent
  | Granted (k : nat) (recorder_ok : bool)
  | Denied (k : nat)
  | DataAvailable (r : nat) (data : Buffer)
  | RecorderStop (r : nat)
  | RecorderError (r : nat)
  | Transport (st : ready_state)
  | Timeslice (n : number).

(** One turn of the event loop.  A recorder delivers data while it records
    or has a [stop] event due, fires [stop] when one is due, and on an
    error goes inactive with a [stop] event due. *)
Definition step (c : client) (ev : event) : client :=
  match ev with
  | StartIntent => startRecording c
  | StopIntent => stopRecording c
  | Granted k ok => granted k ok c
  | Denied k => denied k c
  | DataAvailable r data =>
      match recorders c !! r with
      | Some rec =>
          if decide (state rec = recording ∨ stopping rec = true)
          then ondataavailable data c else c
      | None => c
      end
  | RecorderStop r =>
      match recorders c !! r with
      | Some rec =>
          if stopping rec
          then onstop (stream rec)
                 (set_recorder r (Recorder (state rec) (stream rec) (interval rec) false) c)
          else c
      | None => c
      end
  | RecorderError r =>
      match recorders c !! r with
      | Some rec =>
          if decide (state rec = recording)
          then onerror (stream rec)
                 (set_recorder r (Recorder inactive (stream rec) (interval rec) true) c)
          else c
      | None => c
      end
  | Transport st =>
      Client (isRecording c) (timeslice c) st (recorderRef c) (streamRef c)
             (recorders c) (tracks c) (acquiring c) (outbox c)
  | Timeslice n =>
      Client (isRecording c) n (ws c) (recorderRef c) (streamRef c)
             (recorders c) (tracks c) (acquiring c) (outbox c)
  end.

Definition run (evs : list event) : client := fold_left step evs mounted.

(** The pipeline streams when some recorder records; the device is held
    when some stream has live tracks. *)
Definition streaming (c : client) : bool :=
  existsb (fun rec => bool_decide (state rec = recording)) (recorders c).

Definition device_held (c : client) : bool := existsb id (tracks c).

Definition chunks (c : client) : list Buffer :=
  omap (fun m => match m with Chunk d => Some d | _ => None end) (outbox c).

(** A session under way: the last recorder records over the last stream. *)
Definition session (b : bool) ts (rs : list recorder) (tr : list bool) acq out
    (st : recorder_state) (due : bool) (live : bool) (sref : option nat) n : client :=
  Client b ts OPEN (Some (length rs)) sref
         (rs ++ [Recorder st (length tr) (Some (start_interval n)) due])
         (tr ++ [live]) acq out.

(** A live stream has a recorder over it that records or has its [stop]
    event due. *)
Definition owned (c : client) : Prop :=
  ∀ s, tracks c !! s = Some true →
       ∃ r rec, recorders c !! r = Some rec ∧ stream rec = s ∧
                (state rec = recording ∨ stopping rec = true).




End Capture.

(** A press of the talk button on a connected client. *)
Definition press : list Capture.event :=
  [Capture.Transport OPEN; Capture.StartIntent].

(** ** More of the server *)

(** The [readyState] table an event was handled under. *)
Definition transport_of (ev : event) : socket -> ready_state :=
  match ev with
  | Message rs _ _ _ => rs
  | Close rs _ => rs
  end.

(** [broadcast] of the first revision of the server: the frame goes to
    every client of the server, [wss.clients], but the sender. *)
Definition broadcast (readyState : socket -> ready_state) (clients : list socket)
    (sender : socket) (data : Buffer) (isBinary : bool) : M unit :=
  for_of clients (fun client =>
    if decide (client = sender ∨ readyState client ≠ OPEN)
    then ret tt
    else send client (Raw data isBinary)).

(** The text frame [{"type":"leave"}]. *)
Definition leave_text : Buffer :=
  list_byte_of_string (JsonText.quoted "{'type':'leave'}").

(** A [join] frame that carries no room. *)
Definition join_without_room : Buffer :=
  list_byte_of_string (JsonText.quoted "{'type':'join'}").

(** The socket whose handler an event runs. *)
Definition socket_of (ev : event) : socket :=
  match ev with
  | Message _ s _ _ => s
  | Close _ s => s
  end.

(** ** More of the client: the activity log and the recorder format *)
Module App.

(** An entry of the activity log; [id] and [time] come from the clock and
    the random generator. *)
Record entry := Entry {
  id : string;
  message : string;
  level : string;
  time : nat
}.

(** The updater [appendLog] hands to [setLogEntries]:
    [[entry, ...prev].slice(0, 8)]. *)
Definition appendLog (e : entry) (prev : list entry) : list entry :=
  take 8 (e :: prev).

(** The log after the entries [es] were appended in order to an empty log. *)
Definition log_after (es : list entry) : list entry :=
  fold_left (fun log e => appendLog e log) es [].

Definition MIME_CANDIDATES : list string :=
  [ "audio/webm;codecs=opus"; "audio/ogg;codecs=opus";
    "audio/webm"; "audio/ogg"; "audio/mp4" ]%string.

(** The memo [supported]: empty without [window.MediaRecorder], else the
    candidates [MediaRecorder.isTypeSupported] accepts. *)
Definition supported (has_MediaRecorder : bool) (isTypeSupported : string -> bool)
    : list string :=
  if has_MediaRecorder
  then filter (fun type => isTypeSupported type = true) MIME_CANDIDATES
  else [].

(** The effect on [supported]: with a supported type at hand,
    [setSelectedType((prev) => supported.includes(prev) ? prev : supported[0])];
    otherwise the selection stays. *)
Definition next_selectedType (supported : list string) (prev : string) : string :=
  match supported with
  | [] => prev
  | first :: _ => if decide (prev ∈ supported) then prev else first
  end.

End App.

(** * Properties of the relay *)

Arguments leaveRoom : simpl never.
Arguments joinRoom : simpl never.
Arguments broadcastToRoom : simpl never.
Arguments sendJson : simpl never.

Lemma elem_of_Set_delete x c (m : list socket) : x ∈ Set_delete c m ↔ x ∈ m ∧ x ≠ c.
Proof. unfold Set_delete. rewrite list_elem_of_filter. tauto. Qed.

Lemma Set_delete_absent c (m : list socket) : c ∉ m → Set_delete c m = m.
Proof.
  unfold Set_delete. induction m as [|x xs IH]; intros H; [done|].
  rewrite not_elem_of_cons in H. destruct H as [Hx Hxs].
  rewrite filter_cons_True by done. by rewrite IH.
Qed.

Lemma length_Set_delete c (m : list socket) :
  NoDup m → c ∈ m → S (length (Set_delete c m)) = length m.
Proof.
  unfold Set_delete. induction 1 as [|x xs Hx Hnd IH]; intros Hc.
  - by apply elem_of_nil in Hc.
  - apply elem_of_cons in Hc as [<-|Hc].
    + rewrite filter_cons_False by naive_solver.
      fold (Set_delete c xs). by rewrite Set_delete_absent.
    + rewrite filter_cons_True by (intros ->; done). cbn. by rewrite IH.
Qed.

Lemma elem_of_Set_add x c (m : list socket) : x ∈ Set_add c m ↔ x ∈ m ∨ x = c.
Proof.
  unfold Set_add. case_decide.
  - split; [by left|]. by intros [?| ->].
  - rewrite elem_of_app, list_elem_of_singleton. tauto.
Qed.

Lemma Set_add_fresh c (m : list socket) : c ∉ m → Set_add c m = m ++ [c].
Proof. intros H. unfold Set_add. by rewrite decide_False. Qed.

Lemma NoDup_Set_add c (m : list socket) : NoDup m → NoDup (Set_add c m).
Proof.
  intros H. unfold Set_add. case_decide; [done|].
  apply NoDup_app. split_and!; [done| |apply NoDup_singleton].
  intros x Hx Hx'. apply list_elem_of_singleton in Hx'. by subst.
Qed.

Lemma length_Set_add c (m : list socket) :
  length m ≤ length (Set_add c m) ≤ S (length m).
Proof. unfold Set_add. case_decide; rewrite ?length_app; cbn; lia. Qed.

Lemma consistent_empty : consistent empty_registry.
Proof. split; cbn; intros *; rewrite lookup_empty; done. Qed.

Section ServerFacts.

Variable readyState : socket -> ready_state.
Variable JSON_parse : string -> option json.

Lemma for_of_sendJson p members st :
  for_of members (fun peer => sendJson readyState peer p) st
  = Run (Normal tt) st (deliveries readyState members (Json p)).
Proof.
  unfold deliveries. revert st. induction members as [|x xs IH]; intros st; [done|].
  cbn [for_of]. unfold bind, sendJson. rewrite filter_cons.
  destruct (decide (readyState x = OPEN)); cbn; by rewrite IH.
Qed.

Lemma sendJson_run s p st :
  sendJson readyState s p st = Run (Normal tt) st (deliveries readyState [s] (Json p)).
Proof.
  unfold sendJson, deliveries. rewrite filter_cons, filter_nil.
  destruct (decide (readyState s = OPEN)); done.
Qed.

Lemma leaveRoom_none c st :
  socketToRoom st !! c = None →
  leaveRoom readyState c st = Run (Normal None) st [].
Proof. intros H. unfold leaveRoom, bind, gets. rewrite H. done. Qed.

Lemma leaveRoom_unnamed c st :
  socketToRoom st !! c = Some ""%string →
  leaveRoom readyState c st = Run (Normal None) st [].
Proof. intros H. unfold leaveRoom, bind, gets. rewrite H. done. Qed.

Lemma leaveRoom_some c st R m :
  socketToRoom st !! c = Some R → R ≠ ""%string → rooms st !! R = Some m →
  leaveRoom readyState c st =
    let m' := Set_delete c m in
    if decide (length m' = 0)
    then Run (Normal (Some R))
           (Registry (delete R (rooms st)) (delete c (socketToRoom st))) []
    else Run (Normal (Some R))
           (Registry (<[R := m']> (rooms st)) (delete c (socketToRoom st)))
           (deliveries readyState m' (Json (RoomState R (length m') ROOM_LIMIT))).
Proof.
  intros Hc HR Hm. unfold leaveRoom, bind, gets.
  rewrite Hc. destruct (decide (R = ""%string)) as [|_]; [done|].
  rewrite Hm. cbn [modify].
  destruct (decide (length (Set_delete c m) = 0)) as [E|E]; cbn.
  - by rewrite delete_insert_eq.
  - rewrite for_of_sendJson. cbn. by rewrite app_nil_r.
Qed.

Lemma leaveRoom_orphan c st R :
  socketToRoom st !! c = Some R → R ≠ ""%string → rooms st !! R = None →
  leaveRoom readyState c st =
    Run (Normal (Some R)) (Registry (rooms st) (delete c (socketToRoom st))) [].
Proof.
  intros Hc HR Hm. unfold leaveRoom, bind, gets.
  rewrite Hc. destruct (decide (R = ""%string)) as [|_]; [done|].
  rewrite Hm. done.
Qed.

(** [leaveRoom] never throws. *)
Lemma leaveRoom_normal c st :
  ∃ v, outcome (leaveRoom readyState c st) = Normal v.
Proof.
  destruct (socketToRoom st !! c) as [R|] eqn:Hc.
  - destruct (decide (R = ""%string)) as [->|HR].
    + rewrite leaveRoom_unnamed by done. eauto.
    + destruct (rooms st !! R) as [m|] eqn:Hm.
      * rewrite (leaveRoom_some c st R m) by done. cbn.
        case_decide; eauto.
      * rewrite (leaveRoom_orphan c st R) by done. eauto.
  - rewrite leaveRoom_none by done. eauto.
Qed.

(** A join with a string whose trimmed form is not empty: the previous
    membership is released, then the capacity check decides. *)
Lemma joinRoom_string c room st :
  trim room ≠ ""%string →
  joinRoom readyState c (Some (JStr room)) st =
    let R := trim room in
    let left := leaveRoom readyState c st in
    let members := default [] (rooms (final left) !! R) in
    if decide (ROOM_LIMIT ≤ length members)
    then Run (Normal tt) (final left)
           (sends left ++ deliveries readyState [c] (Json room_full))
    else Run (Normal tt)
           (Registry (<[R := Set_add c members]> (rooms (final left)))
                     (<[c := R]> (socketToRoom (final left))))
           (sends left ++
            deliveries readyState (Set_add c members)
              (Json (RoomState R (length (Set_add c members)) ROOM_LIMIT))).
Proof.
  intros HR. cbn zeta.
  destruct (leaveRoom_normal c st) as [v Hv].
  unfold joinRoom, optional_trim, bind at 1. cbn [ret].
  destruct (decide (trim room = ""%string)) as [|_]; [done|].
  unfold bind at 1.
  destruct (leaveRoom readyState c st) as [o mid out]. cbn in Hv. subst o.
  cbn [final sends]. unfold getRoomSet, bind, gets.
  destruct (rooms mid !! trim room) as [m|] eqn:Hm; cbn [from_option id ret modify].
  - cbn [app]. destruct (decide (ROOM_LIMIT ≤ length m)).
    + by rewrite sendJson_run.
    + rewrite for_of_sendJson. cbn. by rewrite ?app_nil_r.
  - cbn [app]. destruct (decide (ROOM_LIMIT ≤ length (@nil socket))) as [Hn|_].
    { cbn in Hn. unfold ROOM_LIMIT in Hn. lia. }
    rewrite for_of_sendJson. cbn. by rewrite insert_insert_eq, ?app_nil_r.
Qed.

Lemma joinRoom_invalid c room st :
  room = None ∨ room = Some JNull ∨ (∃ s, room = Some (JStr s) ∧ trim s = ""%string) →
  joinRoom readyState c room st =
    Run (Normal tt) st (deliveries readyState [c] (Json invalid_room)).
Proof.
  intros [->|[->|(s & -> & Hs)]]; unfold joinRoom, optional_trim, bind; cbn [ret].
  - by rewrite sendJson_run.
  - by rewrite sendJson_run.
  - rewrite Hs, decide_True by done. by rewrite sendJson_run.
Qed.

Lemma joinRoom_throws c room st :
  no_trim room → joinRoom readyState c room st = Run (Throw TypeError) st [].
Proof. destruct room as [[]|]; cbn; try done. Qed.

Lemma broadcastToRoom_none sender data isBinary st :
  socketToRoom st !! sender = None →
  broadcastToRoom readyState sender data isBinary st = Run (Normal tt) st [].
Proof. intros H. unfold broadcastToRoom, bind, gets. by rewrite H. Qed.

Lemma for_of_relay sender data isBinary members st :
  for_of members (fun client =>
    if decide (client = sender ∨ readyState client ≠ OPEN)
    then ret tt else send client (Raw data isBinary)) st
  = Run (Normal tt) st
      (deliveries readyState (Set_delete sender members) (Raw data isBinary)).
Proof.
  unfold deliveries, Set_delete. revert st.
  induction members as [|x xs IH]; intros st; [done|].
  cbn [for_of]. unfold bind. rewrite !filter_cons.
  destruct (decide (x = sender ∨ readyState x ≠ OPEN)) as [[->|H]|H];
    cbn; rewrite IH.
  - rewrite decide_False by naive_solver. done.
  - destruct (decide (x ≠ sender)); [|done].
    rewrite filter_cons, decide_False by done. done.
  - rewrite decide_True by naive_solver.
    rewrite filter_cons, decide_True; [done|].
    destruct (readyState x); naive_solver.
Qed.

Lemma broadcastToRoom_some sender data isBinary st R members :
  socketToRoom st !! sender = Some R → R ≠ ""%string →
  rooms st !! R = Some members →
  broadcastToRoom readyState sender data isBinary st =
    Run (Normal tt) st
      (deliveries readyState (Set_delete sender members) (Raw data isBinary)).
Proof.
  intros Hs HR Hm. unfold broadcastToRoom, bind, gets.
  rewrite Hs. destruct (decide (R = ""%string)) as [|_]; [done|].
  rewrite Hm, for_of_relay. done.
Qed.

(** [broadcastToRoom] never throws and never changes the registry. *)
Lemma broadcastToRoom_pure sender data isBinary st :
  outcome (broadcastToRoom readyState sender data isBinary st) = Normal tt ∧
  final (broadcastToRoom readyState sender data isBinary st) = st.
Proof.
  unfold broadcastToRoom, bind, gets.
  destruct (socketToRoom st !! sender) as [R|]; [|done].
  destruct (decide (R = ""%string)); [done|].
  destruct (rooms st !! R); [|done]. rewrite for_of_relay. done.
Qed.

(** Leaving keeps the two maps in agreement and detaches the socket. *)
Lemma consistent_leave c st :
  consistent st →
  consistent (final (leaveRoom readyState c st)) ∧
  socketToRoom (final (leaveRoom readyState c st)) !! c = None.
Proof.
  intros [Hnd Hsz Hrb Hbr].
  destruct (socketToRoom st !! c) as [R|] eqn:Hc;
    [|rewrite leaveRoom_none by done; by split].
  destruct (Hbr _ _ Hc) as (HR & m & Hm & Hcm).
  rewrite (leaveRoom_some c st R m) by done. cbn zeta.
  assert (Hother : ∀ s r, s ≠ c → socketToRoom st !! s = Some r → r = R →
            s ∈ Set_delete c m).
  { intros s r Hs Hsr ->. destruct (Hbr _ _ Hsr) as (_ & m0 & Hm0 & Hin).
    rewrite Hm in Hm0. injection Hm0 as <-. by apply elem_of_Set_delete. }
  destruct (decide (length (Set_delete c m) = 0)) as [E|E]; cbn [final].
  - apply nil_length_inv in E.
    split; [split; cbn|cbn; apply lookup_delete_eq].
    + intros r x Hx. apply lookup_delete_Some in Hx as [_ Hx]. eauto.
    + intros r x Hx. apply lookup_delete_Some in Hx as [_ Hx]. eauto.
    + intros r x s Hx Hs. apply lookup_delete_Some in Hx as [Hr Hx].
      rewrite lookup_delete_ne; [eauto|].
      intros <-. rewrite (Hrb _ _ _ Hx Hs) in Hc. congruence.
    + intros s r Hs. apply lookup_delete_Some in Hs as [Hsc Hs].
      destruct (Hbr _ _ Hs) as (Hr & m0 & Hm0 & Hin). split; [done|].
      exists m0. split; [|done]. rewrite lookup_delete_ne; [done|].
      intros <-. specialize (Hother s R (not_eq_sym Hsc) Hs eq_refl).
      rewrite E in Hother. by apply elem_of_nil in Hother.
  - split; [split; cbn|cbn; apply lookup_delete_eq].
    + intros r x Hx. apply lookup_insert_Some in Hx as [[_ <-]|[_ Hx]]; [|eauto].
      apply NoDup_filter. eauto.
    + intros r x Hx. apply lookup_insert_Some in Hx as [[_ <-]|[_ Hx]]; [|eauto].
      pose proof (length_filter (fun y => y ≠ c) m) as Hle.
      specialize (Hsz _ _ Hm). unfold Set_delete in *. lia.
    + intros r x s Hx Hs. apply lookup_insert_Some in Hx as [[<- <-]|[Hr Hx]].
      * apply elem_of_Set_delete in Hs as [Hs Hsc].
        rewrite lookup_delete_ne by done. eauto.
      * rewrite lookup_delete_ne; [eauto|].
        intros <-. rewrite (Hrb _ _ _ Hx Hs) in Hc. congruence.
    + intros s r Hs. apply lookup_delete_Some in Hs as [Hsc Hs].
      destruct (Hbr _ _ Hs) as (Hr & m0 & Hm0 & Hin). split; [done|].
      destruct (decide (r = R)) as [->|Hne].
      * exists (Set_delete c m). rewrite lookup_insert_eq. split; [done|].
        eapply Hother; eauto.
      * exists m0. by rewrite lookup_insert_ne.
Qed.

Lemma consistent_join c room st :
  consistent st → consistent (final (joinRoom readyState c room st)).
Proof.
  intros Hst.
  destruct room as [[| | |s| |]|];
    try (rewrite joinRoom_throws by done; done);
    try (rewrite joinRoom_invalid by eauto; done).
  destruct (decide (trim s = ""%string)) as [E|E];
    [rewrite joinRoom_invalid by eauto; done|].
  rewrite joinRoom_string by done. cbn zeta.
  destruct (consistent_leave c st Hst) as [[Hnd Hsz Hrb Hbr] Hc].
  set (mid := final (leaveRoom readyState c st)) in *.
  destruct (decide (ROOM_LIMIT ≤ length (default [] (rooms mid !! trim s))))
    as [Hfull|Hfree]; cbn [final]; [by split|].
  assert (Hfresh : ∀ r x, rooms mid !! r = Some x → c ∉ x).
  { intros r x Hx Hin. rewrite (Hrb _ _ _ Hx Hin) in Hc. done. }
  assert (Hm : ∀ x, rooms mid !! trim s = Some x →
            default [] (rooms mid !! trim s) = x) by (by intros x ->).
  split; cbn.
  - intros r x Hx. apply lookup_insert_Some in Hx as [[_ <-]|[_ Hx]]; [|eauto].
    apply NoDup_Set_add. destruct (rooms mid !! trim s) eqn:Hl; cbn; [eauto|].
    apply NoDup_nil_2.
  - intros r x Hx. apply lookup_insert_Some in Hx as [[_ <-]|[_ Hx]]; [|eauto].
    assert (c ∉ default [] (rooms mid !! trim s)) as Hcm.
    { destruct (rooms mid !! trim s) eqn:Hl; cbn; [eauto|apply not_elem_of_nil]. }
    rewrite Set_add_fresh, length_app by done. cbn.
    unfold ROOM_LIMIT in *. lia.
  - intros r x y Hx Hy. apply lookup_insert_Some in Hx as [[<- <-]|[Hr Hx]].
    + apply elem_of_Set_add in Hy as [Hy| ->]; [|apply lookup_insert_eq].
      destruct (rooms mid !! trim s) as [x|] eqn:Hx; cbn in Hy;
        [|by apply elem_of_nil in Hy].
      rewrite lookup_insert_ne; [eauto|]. intros <-. by eapply Hfresh.
    + rewrite lookup_insert_ne; [eauto|]. intros <-. by eapply Hfresh.
  - intros y r Hy. apply lookup_insert_Some in Hy as [[<- <-]|[Hyc Hy]].
    + split; [done|]. eexists. rewrite lookup_insert_eq. split; [done|].
      apply elem_of_Set_add. by right.
    + destruct (Hbr _ _ Hy) as (Hr & m0 & Hm0 & Hin). split; [done|].
      destruct (decide (r = trim s)) as [->|Hne].
      * eexists. rewrite lookup_insert_eq. split; [done|].
        apply elem_of_Set_add. left. by rewrite (Hm _ Hm0).
      * exists m0. by rewrite lookup_insert_ne.
Qed.

(** [joinRoom] throws only at [room?.trim()], before it touched anything. *)
Lemma joinRoom_outcome c room st :
  (no_trim room ∧ joinRoom readyState c room st = Run (Throw TypeError) st []) ∨
  (¬ no_trim room ∧ outcome (joinRoom readyState c room st) = Normal tt).
Proof.
  destruct room as [[| | |s| |]|];
    try (left; split; [done|by apply joinRoom_throws]);
    right; (split; [by intros []|]);
    try (rewrite joinRoom_invalid by eauto; done).
  destruct (decide (trim s = ""%string)) as [E|E];
    [rewrite joinRoom_invalid by eauto; done|].
  rewrite joinRoom_string by done. cbn zeta. by case_decide.
Qed.

Lemma on_message_binary c data st :
  on_message readyState JSON_parse c data true st
  = broadcastToRoom readyState c data true st.
Proof.
  unfold on_message, bind. cbn.
  by destruct (broadcastToRoom readyState c data true st).
Qed.

Lemma on_message_unparseable c data st :
  JSON_parse (toString data) = None →
  on_message readyState JSON_parse c data false st
  = broadcastToRoom readyState c data false st.
Proof.
  intros H. unfold on_message, intercept, try_catch, parse, bind. cbn.
  rewrite H. cbn.
  by destruct (broadcastToRoom readyState c data false st).
Qed.

(** The payload is [null]: reading its [type] throws inside the [try]. *)
Lemma on_message_null c data st :
  JSON_parse (toString data) = Some JNull →
  on_message readyState JSON_parse c data false st
  = broadcastToRoom readyState c data false st.
Proof.
  intros H. unfold on_message, intercept, try_catch, parse, bind. cbn.
  rewrite H. cbn.
  by destruct (broadcastToRoom readyState c data false st).
Qed.

Lemma on_message_other c data st payload type :
  JSON_parse (toString data) = Some payload →
  get_prop payload "type" = Normal type →
  is_type type "join" = false → is_type type "leave" = false →
  on_message readyState JSON_parse c data false st
  = broadcastToRoom readyState c data false st.
Proof.
  intros H Ht Hj Hl. unfold on_message, intercept, try_catch, parse, bind. cbn.
  rewrite H. cbn. rewrite Ht. cbn. rewrite Hj, Hl.
  destruct (is_type type "audio-config"); cbn;
    destruct (broadcastToRoom_pure c data false st) as [Ho Hf];
    destruct (broadcastToRoom readyState c data false st) as [o f out];
    cbn in *; subst; cbn; by rewrite ?app_nil_r.
Qed.

Lemma on_message_leave c data st payload type :
  JSON_parse (toString data) = Some payload →
  get_prop payload "type" = Normal type →
  is_type type "leave" = true →
  on_message readyState JSON_parse c data false st
  = Run (Normal tt) (final (leaveRoom readyState c st))
        (sends (leaveRoom readyState c st)).
Proof.
  intros H Ht Hl. unfold on_message, intercept, try_catch, parse, bind. cbn.
  rewrite H. cbn. rewrite Ht. cbn.
  assert (is_type type "join" = false) as ->.
  { destruct type as [[]|]; cbn in *; try done.
    apply bool_decide_eq_true in Hl as ->. done. }
  rewrite Hl. destruct (leaveRoom_normal c st) as [v Hv].
  destruct (leaveRoom readyState c st) as [o f out]. cbn in *. subst.
  unfold ret. by rewrite ?app_nil_r.
Qed.

Lemma on_message_join c data st payload type room :
  JSON_parse (toString data) = Some payload →
  get_prop payload "type" = Normal type →
  is_type type "join" = true →
  get_prop payload "room" = Normal room →
  on_message readyState JSON_parse c data false st
  = match outcome (joinRoom readyState c room st) with
    | Normal _ =>
        Run (Normal tt) (final (joinRoom readyState c room st))
            (sends (joinRoom readyState c room st))
    | Throw _ => broadcastToRoom readyState c data false st
    end.
Proof.
  intros H Ht Hj Hr. unfold on_message, intercept, try_catch, parse, bind. cbn.
  rewrite H. cbn. rewrite Ht. cbn. rewrite Hj, Hr. cbn.
  destruct (joinRoom_outcome c room st) as [[_ E]|[_ E]].
  - rewrite E. cbn.
    by destruct (broadcastToRoom readyState c data false st).
  - destruct (joinRoom readyState c room st) as [o f out]. cbn in *. subst.
    unfold ret. by rewrite ?app_nil_r.
Qed.

(** Every message ends in one of three ways: relayed, a join that
    returned, or a leave. *)
Lemma on_message_cases c data isBinary st :
  let r := on_message readyState JSON_parse c data isBinary st in
  r = broadcastToRoom readyState c data isBinary st ∨
  (∃ room, r = Run (Normal tt) (final (joinRoom readyState c room st))
                   (sends (joinRoom readyState c room st))) ∨
  r = Run (Normal tt) (final (leaveRoom readyState c st))
          (sends (leaveRoom readyState c st)).
Proof.
  cbn zeta. destruct isBinary; [left; apply on_message_binary|].
  destruct (JSON_parse (toString data)) as [payload|] eqn:H;
    [|left; by apply on_message_unparseable].
  destruct (get_prop payload "type") as [type|e] eqn:Ht.
  2:{ destruct payload; try done. left. by apply on_message_null. }
  destruct (is_type type "join") eqn:Hj.
  - destruct (get_prop payload "room") as [room|e] eqn:Hr.
    2:{ destruct payload; done. }
    rewrite (on_message_join c data st payload type room) by done.
    destruct (outcome (joinRoom readyState c room st)); eauto.
  - destruct (is_type type "leave") eqn:Hl.
    + right; right. by eapply on_message_leave.
    + left. by eapply on_message_other.
Qed.

Lemma consistent_handle_message c data isBinary st :
  consistent st →
  consistent (final (on_message readyState JSON_parse c data isBinary st)).
Proof.
  intros Hst.
  destruct (on_message_cases c data isBinary st) as [E|[[room E]|E]];
    rewrite E; cbn [final].
  - by rewrite (proj2 (broadcastToRoom_pure c data isBinary st)).
  - by apply consistent_join.
  - by apply consistent_leave.
Qed.

Lemma on_close_run c st :
  on_close readyState c st
  = Run (Normal tt) (final (leaveRoom readyState c st))
        (sends (leaveRoom readyState c st)).
Proof.
  unfold on_close, bind. destruct (leaveRoom_normal c st) as [v Hv].
  destruct (leaveRoom readyState c st) as [o f out]. cbn in *. subst.
  by rewrite app_nil_r.
Qed.

End ServerFacts.

Lemma consistent_handle JSON_parse ev st :
  consistent st → consistent (final (handle JSON_parse ev st)).
Proof.
  intros Hst. destruct ev as [rs c data isBinary|rs c]; cbn [handle].
  - by apply consistent_handle_message.
  - rewrite on_close_run. by apply consistent_leave.
Qed.

Lemma after_snoc JSON_parse evs ev :
  after JSON_parse (evs ++ [ev])
  = final (handle JSON_parse ev (after JSON_parse evs)).
Proof. unfold after. by rewrite fold_left_app. Qed.

(** Every registry a trace of events leads to is consistent. *)
Lemma consistent_after JSON_parse evs : consistent (after JSON_parse evs).
Proof.
  induction evs as [|ev evs IH] using rev_ind.
  - apply consistent_empty.
  - rewrite after_snoc. by apply consistent_handle.
Qed.

(** ** What leaving does to a consistent registry *)

Section LeaveFacts.

Variable readyState : socket -> ready_state.
Variables (c : socket) (st : registry).
Hypothesis Hst : consistent st.

Lemma leave_rooms R :
  rooms (final (leaveRoom readyState c st)) !! R
  = match rooms st !! R with
    | Some m => if decide (Set_delete c m = []) then None else Some (Set_delete c m)
    | None => None
    end.
Proof.
  destruct Hst as [Hnd Hsz Hrb Hbr].
  assert (Hkeep : ∀ m, rooms st !! R = Some m → c ∉ m →
            (if decide (Set_delete c m = []) then None else Some (Set_delete c m))
            = Some m).
  { intros m Hm Hc. rewrite Set_delete_absent by done.
    rewrite decide_False; [done|]. intros ->. specialize (Hsz _ _ Hm). cbn in Hsz. lia. }
  destruct (socketToRoom st !! c) as [R0|] eqn:Hc.
  - destruct (Hbr _ _ Hc) as (HR0 & m0 & Hm0 & Hin).
    rewrite (leaveRoom_some readyState c st R0 m0) by done. cbn zeta.
    destruct (decide (R = R0)) as [->|Hne].
    + rewrite Hm0. destruct (decide (length (Set_delete c m0) = 0)) as [E|E]; cbn.
      * rewrite lookup_delete_eq. apply nil_length_inv in E. by rewrite decide_True.
      * rewrite lookup_insert_eq. rewrite decide_False; [done|].
        intros H. by rewrite H in E.
    + assert (rooms st !! R =
              match rooms st !! R with
              | Some m => if decide (Set_delete c m = []) then None else Some (Set_delete c m)
              | None => None
              end) as Hsame.
      { destruct (rooms st !! R) as [m|] eqn:Hm; [|done].
        symmetry. apply Hkeep; [done|]. intros Hcm.
        rewrite (Hrb _ _ _ Hm Hcm) in Hc. congruence. }
      case_decide; cbn; [rewrite lookup_delete_ne by done|rewrite lookup_insert_ne by done];
        exact Hsame.
  - rewrite leaveRoom_none by done. cbn.
    destruct (rooms st !! R) as [m|] eqn:Hm; [|done].
    symmetry. apply Hkeep; [done|]. intros Hcm.
    rewrite (Hrb _ _ _ Hm Hcm) in Hc. congruence.
Qed.

Lemma leave_back :
  socketToRoom (final (leaveRoom readyState c st)) = delete c (socketToRoom st).
Proof.
  destruct Hst as [Hnd Hsz Hrb Hbr].
  destruct (socketToRoom st !! c) as [R0|] eqn:Hc.
  - destruct (Hbr _ _ Hc) as (HR0 & m0 & Hm0 & Hin).
    rewrite (leaveRoom_some readyState c st R0 m0) by done. cbn zeta.
    by case_decide.
  - rewrite leaveRoom_none by done. cbn. by rewrite delete_id.
Qed.

Lemma leave_sends :
  sends (leaveRoom readyState c st)
  = match socketToRoom st !! c with
    | Some R =>
        let peers := Set_delete c (default [] (rooms st !! R)) in
        deliveries readyState peers (Json (RoomState R (length peers) ROOM_LIMIT))
    | None => []
    end.
Proof.
  destruct Hst as [Hnd Hsz Hrb Hbr].
  destruct (socketToRoom st !! c) as [R0|] eqn:Hc.
  - destruct (Hbr _ _ Hc) as (HR0 & m0 & Hm0 & Hin).
    rewrite (leaveRoom_some readyState c st R0 m0) by done. cbn zeta.
    rewrite Hm0. cbn [from_option id].
    destruct (decide (length (Set_delete c m0) = 0)) as [E|E]; [|done].
    apply nil_length_inv in E. cbn. by rewrite E.
  - by rewrite leaveRoom_none.
Qed.

(** A socket is in no room exactly when the back reference is absent. *)
Lemma unattached_iff :
  socketToRoom st !! c = None ↔ ∀ R m, rooms st !! R = Some m → c ∉ m.
Proof.
  destruct Hst as [Hnd Hsz Hrb Hbr]. split.
  - intros Hc R m Hm Hin. rewrite (Hrb _ _ _ Hm Hin) in Hc. done.
  - intros H. destruct (socketToRoom st !! c) as [R|] eqn:Hc; [|done].
    destruct (Hbr _ _ Hc) as (_ & m & Hm & Hin). by destruct (H _ _ Hm).
Qed.

End LeaveFacts.

(** * The claims about the relay *)

(** C1: in every state reachable by join, leave and close events, a room of
    the registry holds one or two members, never more and never none; and
    when the only member of a room leaves, the room is gone from the
    registry once [leaveRoom] returns. *)
Theorem room_holds_one_or_two JSON_parse evs :
  let st := after JSON_parse evs in
  (∀ R members, rooms st !! R = Some members →
     length members = 1 ∨ length members = 2) ∧
  (∀ readyState c R, rooms st !! R = Some [c] →
     rooms (final (leaveRoom readyState c st)) !! R = None).
Proof.
  cbn zeta. pose proof (consistent_after JSON_parse evs) as Hst. split.
  - intros R members H. pose proof (rooms_size _ Hst _ _ H) as Hsz.
    unfold ROOM_LIMIT in Hsz. lia.
  - intros rs c R H. rewrite leave_rooms, H by done.
    unfold Set_delete. rewrite filter_cons_False, filter_nil by naive_solver.
    by rewrite decide_True.
Qed.

Lemma room_holds_one_or_two_witness :
  rooms (after JsonText.JSON_parse two_in_abc) !! "abc"%string = Some [1; 2] ∧
  (length [1; 2] = 1 ∨ length [1; 2] = 2) ∧
  rooms (after JsonText.JSON_parse two_in_abc) !! "x"%string = Some [3] ∧
  rooms (final (leaveRoom all_open 3 (after JsonText.JSON_parse two_in_abc)))
    !! "x"%string = None.
Proof.
  pose proof (room_holds_one_or_two JsonText.JSON_parse two_in_abc) as [H1 H2].
  assert (rooms (after JsonText.JSON_parse two_in_abc) !! "abc"%string = Some [1; 2])
    as Ha by (vm_compute; reflexivity).
  assert (rooms (after JsonText.JSON_parse two_in_abc) !! "x"%string = Some [3])
    as Hx by (vm_compute; reflexivity).
  split_and!; [exact Ha|exact (H1 _ _ Ha)|exact Hx|exact (H2 all_open _ _ Hx)].
Defined.

(** C2: a join that targets a room already holding two members, the sender
    not among them, fails: the sender (whose transport is open) is sent the
    [room-full] error after the notifications of its own departure, the
    target room keeps its members, and the sender is left in no room. *)
Theorem join_full_room_rejected JSON_parse evs readyState c room members :
  let st := after JSON_parse evs in
  let R := trim room in
  R ≠ ""%string →
  rooms st !! R = Some members → length members = 2 → c ∉ members →
  readyState c = OPEN →
  let r := joinRoom readyState c (Some (JStr room)) st in
  outcome r = Normal tt ∧
  sends r = sends (leaveRoom readyState c st)
            ++ [(c, Json (ErrorMsg "room-full" "Room is full."))] ∧
  rooms (final r) !! R = Some members ∧
  socketToRoom (final r) !! c = None ∧
  (∀ R' ms, rooms (final r) !! R' = Some ms → c ∉ ms).
Proof.
  cbn zeta. intros HR Hm Hlen Hc Hopen.
  pose proof (consistent_after JSON_parse evs) as Hst.
  set (st := after JSON_parse evs) in *.
  destruct (consistent_leave readyState c st Hst) as [Hmid Hgone].
  assert (rooms (final (leaveRoom readyState c st)) !! trim room = Some members) as Hkeep.
  { rewrite leave_rooms, Hm by done. rewrite Set_delete_absent by done.
    rewrite decide_False; [done|]. intros ->. done. }
  rewrite joinRoom_string by done. cbn zeta. rewrite Hkeep. cbn [from_option id].
  rewrite decide_True by (unfold ROOM_LIMIT; lia). cbn [outcome final sends].
  split_and!; try done.
  - unfold deliveries. by rewrite filter_cons_True, filter_nil by done.
  - by apply unattached_iff.
Qed.

Lemma join_full_room_rejected_witness :
  sends (joinRoom all_open 3 (Some (JStr " abc"))
           (after JsonText.JSON_parse two_in_abc))
  = [(3, Json (ErrorMsg "room-full" "Room is full."))] ∧
  rooms (final (joinRoom all_open 3 (Some (JStr " abc"))
                  (after JsonText.JSON_parse two_in_abc))) !! "abc"%string
  = Some [1; 2].
Proof.
  assert (trim " abc" = "abc"%string) as Et by (vm_compute; reflexivity).
  destruct (join_full_room_rejected JsonText.JSON_parse two_in_abc all_open 3
              " abc" [1; 2]) as (_ & Hs & Hr & _).
  - vm_compute. discriminate.
  - vm_compute. reflexivity.
  - reflexivity.
  - vm_compute. intros H. repeat (inversion H as [|? ? ? H']; clear H; rename H' into H).
  - reflexivity.
  - rewrite Et in Hr. split; [|exact Hr].
    rewrite Hs. vm_compute. reflexivity.
Defined.

Lemma elem_of_deliveries readyState members f to g :
  (to, g) ∈ deliveries readyState members f →
  to ∈ members ∧ readyState to = OPEN ∧ g = f.
Proof.
  unfold deliveries. intros H. apply list_elem_of_fmap in H as (x & [= -> ->] & Hx).
  apply list_elem_of_filter in Hx. tauto.
Qed.

(** C3: [broadcastToRoom] returns normally and leaves the registry alone;
    from a sender in a room of two members with open transports exactly one
    frame goes out, to the other member, carrying the payload and the
    binary flag as received; from a sender in no room nothing goes out; and
    no frame ever goes to a socket whose transport is not open. *)
Theorem relay_delivery JSON_parse evs readyState sender data isBinary :
  let st := after JSON_parse evs in
  let r := broadcastToRoom readyState sender data isBinary st in
  outcome r = Normal tt ∧ final r = st ∧
  (∀ R a b, rooms st !! R = Some [a; b] → sender ∈ [a; b] →
     readyState a = OPEN → readyState b = OPEN →
     ∃ peer, peer ∈ [a; b] ∧ peer ≠ sender ∧
             sends r = [(peer, Raw data isBinary)]) ∧
  ((∀ R members, rooms st !! R = Some members → sender ∉ members) →
     sends r = []) ∧
  (∀ client f, readyState client ≠ OPEN → (client, f) ∉ sends r).
Proof.
  cbn zeta. pose proof (consistent_after JSON_parse evs) as Hst.
  set (st := after JSON_parse evs) in *.
  destruct (broadcastToRoom_pure readyState sender data isBinary st) as [Ho Hf].
  split_and!; [done|done| | |].
  - intros R a b Hm Hin Ha Hb.
    pose proof (rooms_back _ Hst _ _ _ Hm Hin) as Hs.
    destruct (back_rooms _ Hst _ _ Hs) as [HR _].
    pose proof (rooms_nodup _ Hst _ _ Hm) as Hnd.
    apply NoDup_cons in Hnd as [Hab _].
    rewrite list_elem_of_singleton in Hab.
    rewrite (broadcastToRoom_some _ _ _ _ _ _ _ Hs HR Hm). cbn [sends].
    apply elem_of_cons in Hin as [->|Hin%list_elem_of_singleton].
    + exists b. split; [set_solver|]. split; [congruence|].
      replace (Set_delete a [a; b]) with [b].
      * unfold deliveries. by rewrite filter_cons_True, filter_nil.
      * unfold Set_delete. rewrite filter_cons_False by (intros H; by apply H).
        by rewrite filter_cons_True, filter_nil by congruence.
    + subst b. exists a. split; [set_solver|]. split; [congruence|].
      replace (Set_delete sender [a; sender]) with [a].
      * unfold deliveries. by rewrite filter_cons_True, filter_nil.
      * unfold Set_delete. rewrite filter_cons_True by congruence.
        by rewrite filter_cons_False, filter_nil by (intros H; by apply H).
  - intros Hnone. apply (unattached_iff sender st Hst) in Hnone.
    by rewrite broadcastToRoom_none.
  - intros client f Hclosed Hin.
    destruct (socketToRoom st !! sender) as [R|] eqn:Hs.
    + destruct (back_rooms _ Hst _ _ Hs) as (HR & m & Hm & _).
      rewrite (broadcastToRoom_some _ _ _ _ _ _ _ Hs HR Hm) in Hin. cbn in Hin.
      apply elem_of_deliveries in Hin. tauto.
    + rewrite broadcastToRoom_none in Hin by done. by apply elem_of_nil in Hin.
Qed.

Lemma relay_delivery_witness :
  sends (broadcastToRoom all_open 1 chunk true (after JsonText.JSON_parse two_in_abc))
  = [(2, Raw chunk true)] ∧
  sends (broadcastToRoom all_open 4 chunk true (after JsonText.JSON_parse two_in_abc))
  = [] ∧
  (2, Raw chunk true) ∉
    sends (broadcastToRoom (fun s => if decide (s = 2) then CLOSING else OPEN)
             1 chunk true (after JsonText.JSON_parse two_in_abc)).
Proof.
  split_and!.
  - destruct (relay_delivery JsonText.JSON_parse two_in_abc all_open 1 chunk true)
      as (_ & _ & H & _ & _).
    destruct (H "abc"%string 1 2) as (peer & Hin & Hne & Hs);
      [vm_compute; reflexivity|apply list_elem_of_here|reflexivity|reflexivity|].
    rewrite Hs. apply elem_of_cons in Hin as [->|Hin]; [done|].
    apply list_elem_of_singleton in Hin as ->. done.
  - apply (relay_delivery JsonText.JSON_parse two_in_abc all_open 4 chunk true).
    intros R members Hm Hin.
    pose proof (rooms_back _ (consistent_after _ _) _ _ _ Hm Hin) as Hb.
    vm_compute in Hb. discriminate.
  - apply (relay_delivery JsonText.JSON_parse two_in_abc
             (fun s => if decide (s = 2) then CLOSING else OPEN) 1 chunk true).
    vm_compute. discriminate.
Defined.

(** ** Joins that are accepted *)

Arguments Set_delete : simpl never.
Arguments Set_add : simpl never.
Arguments deliveries : simpl never.
Arguments trim : simpl never.

Section JoinFacts.

Variable readyState : socket -> ready_state.
Variables (c : socket) (st : registry) (room : string).
Hypothesis Hst : consistent st.
Hypothesis Hroom : trim room ≠ ""%string.

Lemma leave_target :
  default [] (rooms (final (leaveRoom readyState c st)) !! trim room)
  = peers_of c st (trim room).
Proof.
  unfold peers_of. rewrite leave_rooms by done.
  destruct (rooms st !! trim room) as [m|]; cbn [from_option id]; [|done].
  case_decide as E; cbn [from_option id]; [by rewrite E|done].
Qed.

Lemma join_accepted :
  length (peers_of c st (trim room)) < ROOM_LIMIT →
  joinRoom readyState c (Some (JStr room)) st =
    let R := trim room in
    let members := peers_of c st R ++ [c] in
    Run (Normal tt)
        (Registry (<[R := members]> (rooms (final (leaveRoom readyState c st))))
                  (<[c := R]> (socketToRoom st)))
        (sends (leaveRoom readyState c st) ++
         deliveries readyState members
           (Json (RoomState R (length members) ROOM_LIMIT))).
Proof.
  intros Hfree. rewrite joinRoom_string by done. cbn zeta.
  rewrite leave_target, leave_back by done.
  rewrite decide_False by lia.
  rewrite Set_add_fresh by (unfold peers_of; rewrite elem_of_Set_delete; tauto).
  by rewrite insert_delete_eq.
Qed.

Lemma join_refused :
  ROOM_LIMIT ≤ length (peers_of c st (trim room)) →
  joinRoom readyState c (Some (JStr room)) st =
    Run (Normal tt) (final (leaveRoom readyState c st))
        (sends (leaveRoom readyState c st) ++
         deliveries readyState [c] (Json room_full)).
Proof.
  intros Hfull. rewrite joinRoom_string by done. cbn zeta.
  rewrite leave_target. by rewrite decide_True.
Qed.

End JoinFacts.

Lemma peers_below_limit c st R :
  (∀ m, rooms st !! R = Some m → length (Set_delete c m) < ROOM_LIMIT) →
  length (peers_of c st R) < ROOM_LIMIT.
Proof.
  intros Hfree. unfold peers_of.
  destruct (rooms st !! R) as [m|] eqn:Hm; cbn [from_option id].
  - by apply Hfree.
  - unfold Set_delete, ROOM_LIMIT. rewrite filter_nil. cbn. lia.
Qed.

(** C7: a join that is accepted (the room id is not blank and the room,
    the joiner's own membership released, is not full) sends one
    [room-state] with the room id, the member count after the join and the
    limit 2 to every member of the room whose transport is open, the joiner
    included; when the joiner is the second member, both get count 2. *)
Theorem join_notifies_room JSON_parse evs readyState c room :
  let st := after JSON_parse evs in
  let R := trim room in
  R ≠ ""%string →
  (∀ m, rooms st !! R = Some m → length (Set_delete c m) < ROOM_LIMIT) →
  let r := joinRoom readyState c (Some (JStr room)) st in
  (∃ members,
     rooms (final r) !! R = Some members ∧ c ∈ members ∧
     sends r = sends (leaveRoom readyState c st) ++
               map (fun peer => (peer, Json (RoomState R (length members) 2)))
                   (filter (fun peer => readyState peer = OPEN) members)) ∧
  (∀ a, rooms st !! R = Some [a] → a ≠ c →
     readyState a = OPEN → readyState c = OPEN →
     sends r = sends (leaveRoom readyState c st) ++
               [(a, Json (RoomState R 2 2)); (c, Json (RoomState R 2 2))]).
Proof.
  cbn zeta. intros HR Hfree.
  pose proof (consistent_after JSON_parse evs) as Hst.
  set (st := after JSON_parse evs) in *.
  pose proof (peers_below_limit c st (trim room) Hfree) as Hlt.
  rewrite (join_accepted readyState c st room Hst HR Hlt). cbn zeta.
  cbn [final sends rooms]. split.
  - eexists. rewrite lookup_insert_eq. split; [done|]. split; [|done].
    apply elem_of_app. right. by apply list_elem_of_singleton.
  - intros a Ha Hac Hoa Hoc. unfold peers_of. rewrite Ha. cbn [from_option id].
    unfold Set_delete. rewrite filter_cons_True, filter_nil by done.
    unfold deliveries. cbn [app length].
    by rewrite !filter_cons_True, filter_nil by done.
Qed.

Lemma join_notifies_room_witness :
  sends (joinRoom all_open 4 (Some (JStr "x "))
           (after JsonText.JSON_parse two_in_abc))
  = [(3, Json (RoomState "x" 2 2)); (4, Json (RoomState "x" 2 2))].
Proof.
  assert (trim "x " = "x"%string) as Et by (vm_compute; reflexivity).
  destruct (join_notifies_room JsonText.JSON_parse two_in_abc all_open 4 "x ")
    as [_ H].
  - vm_compute. discriminate.
  - intros m Hm. rewrite Et in Hm. vm_compute in Hm. injection Hm as <-.
    vm_compute. lia.
  - rewrite Et in H. rewrite (H 3); [vm_compute; reflexivity| | | | ].
    + vm_compute. reflexivity.
    + discriminate.
    + reflexivity.
    + reflexivity.
Defined.

(** C9: a socket that is already a member of room R and joins R again is
    accepted, also when R holds two members: no [room-full] error is sent;
    the remaining member is first sent a [room-state] with the count less
    one, then every member, the rejoined socket last, is sent a
    [room-state] with the count restored. *)
Theorem rejoin_same_room JSON_parse evs readyState c room members :
  let st := after JSON_parse evs in
  let R := trim room in
  rooms st !! R = Some members → c ∈ members →
  let r := joinRoom readyState c (Some (JStr room)) st in
  let peers := Set_delete c members in
  outcome r = Normal tt ∧
  (∀ to, (to, Json (ErrorMsg "room-full" "Room is full.")) ∉ sends r) ∧
  rooms (final r) !! R = Some (peers ++ [c]) ∧
  socketToRoom (final r) !! c = Some R ∧
  sends r =
    deliveries readyState peers (Json (RoomState R (length members - 1) 2)) ++
    deliveries readyState (peers ++ [c]) (Json (RoomState R (length members) 2)).
Proof.
  cbn zeta. intros Hm Hin.
  pose proof (consistent_after JSON_parse evs) as Hst.
  set (st := after JSON_parse evs) in *.
  pose proof (rooms_back _ Hst _ _ _ Hm Hin) as Hs.
  destruct (back_rooms _ Hst _ _ Hs) as [HR _].
  pose proof (length_Set_delete c members (rooms_nodup _ Hst _ _ Hm) Hin) as Hlen.
  pose proof (rooms_size _ Hst _ _ Hm) as Hsz.
  assert (peers_of c st (trim room) = Set_delete c members) as Hp.
  { unfold peers_of. by rewrite Hm. }
  rewrite (join_accepted readyState c st room Hst HR) by (rewrite Hp; lia).
  cbn zeta. cbn [outcome final sends rooms socketToRoom].
  rewrite !lookup_insert_eq, Hp, (leave_sends readyState c st Hst), Hs. cbn zeta.
  rewrite Hm. cbn [from_option id].
  assert (sends_eq :
    deliveries readyState (Set_delete c members)
      (Json (RoomState (trim room) (length (Set_delete c members)) ROOM_LIMIT)) ++
    deliveries readyState (Set_delete c members ++ [c])
      (Json (RoomState (trim room) (length (Set_delete c members ++ [c])) ROOM_LIMIT))
    = deliveries readyState (Set_delete c members)
        (Json (RoomState (trim room) (length members - 1) 2)) ++
      deliveries readyState (Set_delete c members ++ [c])
        (Json (RoomState (trim room) (length members) 2))).
  { rewrite length_app. cbn [length]. unfold ROOM_LIMIT.
    replace (length (Set_delete c members) + 1) with (length members) by lia.
    replace (length (Set_delete c members)) with (length members - 1) by lia.
    done. }
  split_and!; try done.
  intros to Hto. rewrite sends_eq in Hto.
  apply elem_of_app in Hto as [Hto|Hto]; apply elem_of_deliveries in Hto;
    destruct Hto as (_ & _ & [=]).
Qed.

Lemma rejoin_same_room_witness :
  sends (joinRoom all_open 1 (Some (JStr "abc"))
           (after JsonText.JSON_parse two_in_abc))
  = [ (2, Json (RoomState "abc" 1 2));
      (2, Json (RoomState "abc" 2 2)); (1, Json (RoomState "abc" 2 2)) ].
Proof.
  assert (trim "abc" = "abc"%string) as Et by (vm_compute; reflexivity).
  destruct (rejoin_same_room JsonText.JSON_parse two_in_abc all_open 1 "abc" [1; 2])
    as (_ & _ & _ & _ & H).
  - vm_compute. reflexivity.
  - apply list_elem_of_here.
  - rewrite H. vm_compute. reflexivity.
Defined.

Lemma Set_delete_snoc c (m : list socket) : c ∉ m → Set_delete c (m ++ [c]) = m.
Proof.
  intros H. unfold Set_delete. rewrite filter_app.
  rewrite filter_cons_False, filter_nil by (intros E; by apply E).
  fold (Set_delete c m). by rewrite Set_delete_absent, app_nil_r.
Qed.

Lemma filter_eq_absent c (m : list socket) :
  c ∉ m → filter (fun x => x = c) m = [].
Proof.
  induction m as [|x xs IH]; intros H; [done|].
  apply not_elem_of_cons in H as [Hx Hxs].
  rewrite filter_cons_False by congruence. by apply IH.
Qed.

Lemma once_in_NoDup c (m : list socket) :
  NoDup m → c ∈ m → length (filter (fun x => x = c) m) = 1.
Proof.
  induction 1 as [|x xs Hx Hnd IH]; intros Hc.
  - by apply elem_of_nil in Hc.
  - apply elem_of_cons in Hc as [<-|Hc].
    + rewrite filter_cons_True by done. cbn. by rewrite filter_eq_absent.
    + rewrite filter_cons_False; [by apply IH|]. intros ->. done.
Qed.

(** C8: [leaveRoom] on a socket that is in no room returns [null] and
    changes nothing, so a second [leaveRoom] after a first one is such a
    no-op; and an accepted join, a leave and the same join again end in the
    registry the first join produced, with the socket once in the room and
    in no other room. *)
Theorem leave_idempotent_join_roundtrip JSON_parse evs rs1 rs2 rs3 c :
  let st := after JSON_parse evs in
  ((∀ R m, rooms st !! R = Some m → c ∉ m) →
     leaveRoom rs1 c st = Run (Normal None) st []) ∧
  (let once := final (leaveRoom rs1 c st) in
   leaveRoom rs2 c once = Run (Normal None) once []) ∧
  (∀ room,
     trim room ≠ ""%string →
     (∀ m, rooms st !! trim room = Some m → length (Set_delete c m) < ROOM_LIMIT) →
     let j1 := final (joinRoom rs1 c (Some (JStr room)) st) in
     let l := final (leaveRoom rs2 c j1) in
     let j2 := final (joinRoom rs3 c (Some (JStr room)) l) in
     j2 = j1 ∧
     ∃ members,
       rooms j2 !! trim room = Some members ∧
       length (filter (fun x => x = c) members) = 1 ∧
       socketToRoom j2 !! c = Some (trim room) ∧
       (∀ R' ms, R' ≠ trim room → rooms j2 !! R' = Some ms → c ∉ ms)).
Proof.
  cbn zeta. pose proof (consistent_after JSON_parse evs) as Hst.
  set (st := after JSON_parse evs) in *.
  split_and!.
  - intros Hnone. apply leaveRoom_none. by apply unattached_iff.
  - apply leaveRoom_none. by apply consistent_leave.
  - intros room HR Hfree.
    pose proof (consistent_join rs1 c (Some (JStr room)) st Hst) as Hj1.
    pose proof (peers_below_limit c st (trim room) Hfree) as Hlt.
    set (peers := peers_of c st (trim room)) in *.
    assert (c ∉ peers) as Hcp.
    { unfold peers, peers_of. rewrite elem_of_Set_delete. tauto. }
    rewrite (join_accepted rs1 c st room Hst HR Hlt) in *. cbn zeta in *.
    cbn [final] in *. fold peers in Hj1 |- *.
    set (mid := final (leaveRoom rs1 c st)) in *.
    destruct (consistent_leave rs1 c st Hst) as [Hmid Hgone]. fold mid in Hmid, Hgone.
    set (j1 := Registry (<[trim room := peers ++ [c]]> (rooms mid))
                        (<[c := trim room]> (socketToRoom st))) in *.
    destruct (consistent_leave rs2 c j1 Hj1) as [Hl Hlc].
    set (l := final (leaveRoom rs2 c j1)) in *.
    assert (∀ k, rooms l !! k =
                 if decide (k = trim room)
                 then (if decide (peers = []) then None else Some peers)
                 else rooms mid !! k) as Hrooms_l.
    { intros k. unfold l. rewrite leave_rooms by done. unfold j1. cbn [rooms].
      case_decide as Hk.
      - subst k. rewrite lookup_insert_eq. by rewrite Set_delete_snoc.
      - rewrite lookup_insert_ne by done.
        destruct (rooms mid !! k) as [m|] eqn:Hm; [|done].
        assert (c ∉ m) as Hcm by (by eapply (unattached_iff c mid Hmid)).
        rewrite Set_delete_absent by done. rewrite decide_False; [done|].
        intros ->. pose proof (rooms_size _ Hmid _ _ Hm) as Hsz. cbn in Hsz. lia. }
    assert (peers_of c l (trim room) = peers) as Hpl.
    { unfold peers_of. rewrite Hrooms_l, decide_True by done.
      case_decide as E; cbn.
      - by rewrite E.
      - by apply Set_delete_absent. }
    assert (j2_eq : final (joinRoom rs3 c (Some (JStr room)) l) = j1).
    { rewrite (join_accepted rs3 c l room Hl HR) by (rewrite Hpl; lia).
      cbn zeta. cbn [final]. rewrite Hpl.
      rewrite (leaveRoom_none rs3 c l Hlc). cbn [final].
      unfold j1. f_equal.
      - apply map_eq. intros k. destruct (decide (k = trim room)) as [->|Hk].
        + by rewrite !lookup_insert_eq.
        + rewrite !lookup_insert_ne by done. rewrite Hrooms_l.
          by rewrite decide_False.
      - unfold l. rewrite leave_back by done. unfold j1. cbn [socketToRoom].
        by rewrite insert_delete_eq, insert_insert_eq. }
    rewrite j2_eq. split; [done|].
    exists (peers ++ [c]). unfold j1. cbn [rooms socketToRoom].
    rewrite !lookup_insert_eq. split_and!; try done.
    + apply once_in_NoDup.
      * apply (rooms_nodup _ Hj1 (trim room)). unfold j1. cbn.
        by rewrite lookup_insert_eq.
      * apply elem_of_app. right. by apply list_elem_of_singleton.
    + intros R' ms HR' Hms. rewrite lookup_insert_ne in Hms by done.
      by eapply (unattached_iff c mid Hmid).
Qed.

Lemma leave_idempotent_join_roundtrip_witness :
  leaveRoom all_open 4 (after JsonText.JSON_parse two_in_abc)
  = Run (Normal None) (after JsonText.JSON_parse two_in_abc) [] ∧
  rooms (final (joinRoom all_open 4 (Some (JStr "x"))
          (final (leaveRoom all_open 4
            (final (joinRoom all_open 4 (Some (JStr "x"))
              (after JsonText.JSON_parse two_in_abc))))))) !! "x"%string
  = Some [3; 4].
Proof.
  destruct (leave_idempotent_join_roundtrip JsonText.JSON_parse two_in_abc
              all_open all_open all_open 4) as (H1 & _ & H3).
  split.
  - apply H1. intros R m Hm Hin.
    pose proof (rooms_back _ (consistent_after _ _) _ _ _ Hm Hin) as Hb.
    vm_compute in Hb. discriminate.
  - destruct (H3 "x"%string) as [E _].
    + vm_compute. discriminate.
    + intros m Hm. vm_compute in Hm. injection Hm as <-. vm_compute. lia.
    + rewrite E. vm_compute. reflexivity.
Defined.

(** ** Control messages inside the [try] block *)

Section Interception.

Variable readyState : socket -> ready_state.
Variable JSON_parse : string -> option json.

(** A [join] whose room is a number, a boolean, an array or an object
    throws inside [joinRoom]; the [catch] meant for invalid JSON takes it
    and the frame goes on to [broadcastToRoom]. *)
Lemma on_message_join_no_trim c data st payload type room :
  JSON_parse (toString data) = Some payload →
  get_prop payload "type" = Normal type →
  is_type type "join" = true →
  get_prop payload "room" = Normal room →
  no_trim room →
  on_message readyState JSON_parse c data false st
  = broadcastToRoom readyState c data false st.
Proof.
  intros H Ht Hj Hr Hn.
  rewrite (on_message_join readyState JSON_parse c data st payload type room) by done.
  by rewrite joinRoom_throws.
Qed.

(** A [join] whose room is nullish or a string is consumed: what goes out
    is what [joinRoom] sent. *)
Lemma on_message_join_consumed c data st payload type room :
  JSON_parse (toString data) = Some payload →
  get_prop payload "type" = Normal type →
  is_type type "join" = true →
  get_prop payload "room" = Normal room →
  ¬ no_trim room →
  on_message readyState JSON_parse c data false st
  = Run (Normal tt) (final (joinRoom readyState c room st))
        (sends (joinRoom readyState c room st)).
Proof.
  intros H Ht Hj Hr Hn.
  rewrite (on_message_join readyState JSON_parse c data st payload type room) by done.
  destruct (joinRoom_outcome readyState c room st) as [[? _]|[_ ->]]; done.
Qed.

End Interception.

(** C6: the text frame [{"type":"join","room":5}] parses as JSON of type
    [join], yet it is not consumed: from socket 1, paired with socket 2 in
    room [abc], it is relayed verbatim to socket 2 and the registry is left
    as it was. *)
Theorem join_with_numeric_room_is_relayed :
  let st := after JsonText.JSON_parse two_in_abc in
  JsonText.JSON_parse (toString join_number)
    = Some (JObj [("type"%string, JStr "join"); ("room"%string, JNum "5")]) ∧
  on_message all_open JsonText.JSON_parse 1 join_number false st
    = Run (Normal tt) st [(2, Raw join_number false)].
Proof. split; vm_compute; reflexivity. Qed.

(** ** The playback chain keeps its shape *)

Section PlaybackFacts.

Import Playback.

Lemma first_unsettled_settled k (l : list slot) rest :
  (status <$> l) = replicate k Settled ++ rest →
  head rest ≠ Some Settled →
  first_unsettled l = k.
Proof.
  revert l. induction k as [|k IH]; intros l Hl Hrest; cbn in Hl.
  - destruct l as [|[b m []] l]; cbn in *; try done.
    subst rest. cbn in Hrest. done.
  - destruct l as [|[b m st] l]; cbn in *; [done|].
    injection Hl as -> Hl. cbn. f_equal. by eapply IH.
Qed.

Lemma status_lookup (l : list slot) i st :
  (status <$> l) !! i = Some st ↔ ∃ b m, l !! i = Some (Slot b m st).
Proof.
  rewrite list_lookup_fmap. split.
  - destruct (l !! i) as [[b m st']|]; cbn; [|done]. intros [= ->]. eauto.
  - intros (b & m & ->). done.
Qed.

Lemma drain_waiting q k w :
  (status <$> slots q) = replicate k Settled ++ Waiting :: w →
  (status <$> slots (drain q)) = replicate k Settled ++ Playing :: w ∧
  timeline (drain q) = timeline q ++ [Started k].
Proof.
  intros Hq. unfold drain.
  rewrite (first_unsettled_settled k _ (Waiting :: w)) by done.
  assert ((status <$> slots q) !! k = Some Waiting) as Hk.
  { rewrite Hq, lookup_app_r by (rewrite length_replicate; lia).
    by rewrite length_replicate, Nat.sub_diag. }
  apply status_lookup in Hk as (b & m & Hk). rewrite Hk. cbn [slots timeline].
  split; [|done].
  rewrite list_fmap_insert, Hq. cbn [status].
  rewrite insert_app_r_alt by (rewrite length_replicate; lia).
  by rewrite length_replicate, Nat.sub_diag.
Qed.

Lemma drain_idle q k rest :
  (status <$> slots q) = replicate k Settled ++ rest →
  rest = [] ∨ head rest = Some Playing →
  drain q = q.
Proof.
  intros Hq Hrest. unfold drain.
  rewrite (first_unsettled_settled k _ rest Hq) by (destruct Hrest as [-> | ->]; done).
  destruct (slots q !! k) as [[b m st]|] eqn:Hk; [|done].
  assert ((status <$> slots q) !! k = Some st) as Hst by (apply status_lookup; eauto).
  rewrite Hq, lookup_app_r in Hst by (rewrite length_replicate; lia).
  rewrite length_replicate, Nat.sub_diag in Hst.
  destruct Hrest as [->|Hh]; [done|].
  destruct rest as [|r rest]; [done|]. cbn in *.
  injection Hh as ->. injection Hst as <-. done.
Qed.

Lemma shape_enqueue k n playing q data mime :
  chain_shape k n playing q →
  chain_shape k (if playing then S n else 0) true (enqueue data mime q).
Proof.
  intros [Hs Ht]. unfold enqueue.
  set (q' := Queue (slots q ++ [Slot data mime Waiting]) (timeline q)).
  assert ((status <$> slots q') =
          replicate k Settled ++
          (if playing then Playing :: replicate n Waiting else []) ++ [Waiting]) as Hq'.
  { unfold q'. cbn [slots]. rewrite fmap_app, Hs. cbn. by rewrite <- app_assoc. }
  destruct playing.
  - rewrite (drain_idle q' k _ Hq') by (right; done).
    split; [|done]. rewrite Hq'. cbn.
    by rewrite replicate_cons_app.
  - cbn [app] in Hq'. destruct (drain_waiting q' k [] Hq') as [Hs' Ht'].
    split; [done|]. rewrite Ht'. unfold q'. cbn [timeline].
    rewrite Ht. by rewrite app_nil_r.
Qed.

Lemma shape_playing_index k n q i :
  chain_shape k n true q → (status <$> slots q) !! i = Some Playing → i = k.
Proof.
  intros [Hs _] Hi. rewrite Hs in Hi.
  destruct (decide (i < k)) as [Hlt|Hge].
  - rewrite lookup_app_l in Hi by (by rewrite length_replicate).
    apply lookup_replicate in Hi as [? _]. done.
  - rewrite lookup_app_r in Hi by (rewrite length_replicate; lia).
    rewrite length_replicate in Hi.
    destruct (i - k) as [|d] eqn:Hd; [lia|].
    cbn in Hi. apply lookup_replicate in Hi as [? _]. done.
Qed.

Lemma shape_resolve k n q i :
  chain_shape k n true q →
  (status <$> slots q) !! i = Some Playing →
  chain_shape (S k) (pred n) (negb (n =? 0)) (resolve i q).
Proof.
  intros Hq Hi. pose proof (shape_playing_index k n q i Hq Hi) as ->.
  destruct Hq as [Hs Ht].
  apply status_lookup in Hi as (b & m & Hk). unfold resolve. rewrite Hk.
  set (q' := Queue (<[k := Slot b m Settled]> (slots q)) (timeline q ++ [Finished k])).
  assert ((status <$> slots q') = replicate (S k) Settled ++ replicate n Waiting) as Hq'.
  { unfold q'. cbn [slots]. rewrite list_fmap_insert, Hs. cbn [status].
    rewrite insert_app_r_alt by (rewrite length_replicate; lia).
    rewrite length_replicate, Nat.sub_diag. cbn [insert list_insert].
    by rewrite replicate_S_end, <- app_assoc. }
  assert (timeline q' = chronicle (S k)) as Ht'.
  { unfold q'. cbn [timeline chronicle]. rewrite Ht. by rewrite <- app_assoc. }
  destruct n as [|n]; cbn [pred Nat.eqb negb].
  - rewrite (drain_idle q' (S k) [] Hq') by (by left).
    split; [done|]. by rewrite Ht', app_nil_r.
  - destruct (drain_waiting q' (S k) (replicate n Waiting) Hq') as [Hs'' Ht''].
    split; [done|]. by rewrite Ht'', Ht'.
Qed.

Lemma resolve_not_playing q i :
  (status <$> slots q) !! i ≠ Some Playing → resolve i q = q.
Proof.
  intros Hi. unfold resolve.
  destruct (slots q !! i) as [[b m []]|] eqn:Hk; try done.
  destruct Hi. apply status_lookup. eauto.
Qed.

Lemma shape_step q ev k n playing :
  chain_shape k n playing q → ∃ k' n' playing', chain_shape k' n' playing' (step q ev).
Proof.
  intros Hq.
  assert (∀ i, ∃ k' n' playing', chain_shape k' n' playing' (resolve i q)) as Hres.
  { intros i. destruct (decide ((status <$> slots q) !! i = Some Playing)) as [Hi|Hi].
    - destruct playing.
      + eauto using shape_resolve.
      + destruct Hq as [Hs _]. rewrite Hs, app_nil_r in Hi.
        apply lookup_replicate in Hi as [? _]. done.
    - rewrite resolve_not_playing by done. eauto. }
  destruct ev; cbn [step]; eauto using shape_enqueue.
Qed.

Lemma run_snoc evs ev : run (evs ++ [ev]) = step (run evs) ev.
Proof. unfold run. by rewrite fold_left_app. Qed.

Lemma shape_run evs : ∃ k n playing, chain_shape k n playing (run evs).
Proof.
  induction evs as [|ev evs IH] using rev_ind.
  - exists 0, 0, false. done.
  - rewrite run_snoc. destruct IH as (k & n & playing & IH).
    by eapply shape_step.
Qed.

Lemma drain_content q : content <$> slots (drain q) = content <$> slots q.
Proof.
  unfold drain. destruct (slots q !! first_unsettled (slots q)) as [[b m []]|] eqn:E;
    try done.
  cbn [slots]. rewrite list_fmap_insert. cbn. apply list_insert_id.
  by rewrite list_lookup_fmap, E.
Qed.

Lemma resolve_content i q : content <$> slots (resolve i q) = content <$> slots q.
Proof.
  unfold resolve. destruct (slots q !! i) as [[b m []]|] eqn:E; try done.
  rewrite drain_content. cbn [slots]. rewrite list_fmap_insert. cbn.
  apply list_insert_id. by rewrite list_lookup_fmap, E.
Qed.

Lemma enqueue_content data mime q :
  content <$> slots (enqueue data mime q) = (content <$> slots q) ++ [(data, mime)].
Proof. unfold enqueue. rewrite drain_content. cbn [slots]. by rewrite fmap_app. Qed.

Lemma run_content evs : content <$> slots (run evs) = arrivals evs.
Proof.
  induction evs as [|ev evs IH] using rev_ind; [done|].
  rewrite run_snoc. unfold arrivals. rewrite omap_app. fold (arrivals evs).
  rewrite <- IH. destruct ev; cbn [step omap];
    rewrite ?enqueue_content, ?resolve_content, ?app_nil_r; done.
Qed.

Lemma status_at_fmap q i : status_at q i = (status <$> slots q) !! i.
Proof. unfold status_at. by rewrite list_lookup_fmap. Qed.

End PlaybackFacts.

(** C4: whatever the order in which chunks arrive and their playbacks end
    or fail, the chain holds the chunks in arrival order; the timeline is
    slot 0 started and finished, then slot 1, and so on, with at most the
    last started slot unfinished, so playbacks neither overlap nor reorder;
    a slot waits only behind a playing one; [onended], [onerror] and a
    rejected [play()] each settle the playing slot and start the next; and
    a chunk is chained at once, whatever is playing. *)
Theorem playback_is_sequential evs :
  let q := Playback.run evs in
  Playback.content <$> Playback.slots q = Playback.arrivals evs ∧
  (∃ k playing,
     Playback.timeline q
     = Playback.chronicle k ++ (if playing : bool then [Playback.Started k] else [])) ∧
  (∀ i, Playback.status_at q i = Some Playback.Waiting →
     ∃ j, j < i ∧ Playback.status_at q j = Some Playback.Playing) ∧
  (∀ i ev, Playback.status_at q i = Some Playback.Playing →
     ev ∈ [Playback.Ended i; Playback.Errored i; Playback.PlayRejected i] →
     let q' := Playback.step q ev in
     Playback.status_at q' i = Some Playback.Settled ∧
     Playback.timeline q'
     = Playback.timeline q ++
       Playback.Finished i ::
       (if decide (S i < length (Playback.slots q)) then [Playback.Started (S i)] else []) ∧
     (S i < length (Playback.slots q) →
      Playback.status_at q' (S i) = Some Playback.Playing)) ∧
  (∀ data mime,
     let q' := Playback.step q (Playback.Binary data mime) in
     Playback.content <$> Playback.slots q'
     = (Playback.content <$> Playback.slots q) ++ [(data, mime)] ∧
     ∀ i, i < length (Playback.slots q) →
          Playback.status_at q' i = Playback.status_at q i).
Proof.
  cbn zeta. destruct (shape_run evs) as (k & n & playing & Hq).
  set (q := Playback.run evs) in *.
  split_and!.
  - apply run_content.
  - exists k, playing. apply Hq.
  - intros i Hi. rewrite status_at_fmap in Hi. destruct Hq as [Hs _].
    rewrite Hs in Hi. destruct playing.
    + exists k. rewrite status_at_fmap, Hs. split.
      * destruct (decide (k < i)) as [|Hge]; [done|].
        destruct (decide (i = k)) as [->|Hne].
        -- rewrite lookup_app_r in Hi by (rewrite length_replicate; lia).
           by rewrite length_replicate, Nat.sub_diag in Hi.
        -- rewrite lookup_app_l in Hi by (rewrite length_replicate; lia).
           apply lookup_replicate in Hi as [? _]. done.
      * rewrite lookup_app_r by (rewrite length_replicate; lia).
        by rewrite length_replicate, Nat.sub_diag.
    + rewrite app_nil_r in Hi. apply lookup_replicate in Hi as [? _]. done.
  - intros i ev Hi Hev. rewrite status_at_fmap in Hi.
    assert (Playback.step q ev = Playback.resolve i q) as ->.
    { repeat (apply elem_of_cons in Hev as [->|Hev]; [done|]).
      by apply elem_of_nil in Hev. }
    destruct playing.
    2:{ destruct Hq as [Hs _]. rewrite Hs, app_nil_r in Hi.
        apply lookup_replicate in Hi as [? _]. done. }
    pose proof (shape_playing_index k n q i Hq Hi) as ->.
    destruct (shape_resolve k n q k Hq Hi) as [Hs' Ht'].
    destruct Hq as [Hs Ht].
    assert (length (Playback.slots q) = k + S n) as Hlen.
    { rewrite <- (length_fmap Playback.status), Hs, length_app. cbn.
      by rewrite !length_replicate. }
    rewrite !status_at_fmap, Hs', Ht', Ht. split_and!.
    + rewrite lookup_app_l by (rewrite length_replicate; lia).
      apply lookup_replicate. split; [done|lia].
    + cbn [Playback.chronicle]. rewrite <- !app_assoc. cbn [app]. do 3 f_equal.
      destruct n; cbn; case_decide; done || lia.
    + intros Hlt. rewrite lookup_app_r by (rewrite length_replicate; lia).
      rewrite length_replicate, Nat.sub_diag. destruct n; [lia|done].
  - intros data mime. cbn [Playback.step]. split; [apply enqueue_content|].
    intros i Hi. destruct Hq as [Hs Ht].
    destruct (shape_enqueue k n playing q data mime (conj Hs Ht)) as [Hs' _].
    rewrite !status_at_fmap, Hs', Hs.
    assert (length (Playback.slots q) =
            k + length (if playing then Playback.Playing :: replicate n Playback.Waiting else []))
      as Hlen.
    { rewrite <- (length_fmap Playback.status), Hs, length_app.
      by rewrite length_replicate. }
    destruct (decide (i < k)) as [Hlt|Hge].
    + by rewrite !lookup_app_l by (rewrite length_replicate; lia).
    + rewrite !lookup_app_r by (rewrite length_replicate; lia).
      rewrite length_replicate. destruct playing; cbn in Hlen; [|lia].
      rewrite length_replicate in Hlen.
      destruct (i - k) as [|d] eqn:Hd; [done|].
      rewrite replicate_S_end. rewrite !lookup_cons.
      by rewrite lookup_app_l by (rewrite length_replicate; lia).
Qed.

Lemma playback_is_sequential_witness :
  Playback.timeline
    (Playback.run [Playback.Binary chunk "audio/webm"; Playback.Binary chunk "audio/webm";
                   Playback.Binary chunk "audio/webm"; Playback.Errored 0])
  = [Playback.Started 0; Playback.Finished 0; Playback.Started 1] ∧
  Playback.status_at
    (Playback.run [Playback.Binary chunk "audio/webm"; Playback.Binary chunk "audio/webm";
                   Playback.Binary chunk "audio/webm"; Playback.Errored 0]) 2
  = Some Playback.Waiting.
Proof.
  destruct (playback_is_sequential
              [Playback.Binary chunk "audio/webm"; Playback.Binary chunk "audio/webm";
               Playback.Binary chunk "audio/webm"]) as (_ & _ & _ & H & _).
  destruct (H 0 (Playback.Errored 0)) as (_ & Ht & _).
  - reflexivity.
  - apply list_elem_of_further, list_elem_of_here.
  - split; [|reflexivity].
    change (Playback.run [Playback.Binary chunk "audio/webm"; Playback.Binary chunk "audio/webm";
                          Playback.Binary chunk "audio/webm"; Playback.Errored 0])
      with (Playback.step
              (Playback.run [Playback.Binary chunk "audio/webm";
                             Playback.Binary chunk "audio/webm";
                             Playback.Binary chunk "audio/webm"])
              (Playback.Errored 0)).
    rewrite Ht. reflexivity.
Defined.

(** ** The capture pipeline *)

Section CaptureFacts.

Import Capture.

Lemma stopRecording_idle c :
  active_recorder c = None → streamRef c = None →
  stopRecording c = set_isRecording false c.
Proof. intros Ha Hs. unfold stopRecording. by rewrite Ha, Hs. Qed.

Lemma lookup_snoc {A} (l : list A) x : (l ++ [x]) !! length l = Some x.
Proof. rewrite lookup_app_r by lia. by rewrite Nat.sub_diag. Qed.

Lemma insert_snoc {A} (l : list A) x y : <[length l := y]> (l ++ [x]) = l ++ [y].
Proof. rewrite insert_app_r_alt by lia. by rewrite Nat.sub_diag. Qed.

Lemma granted_open c k n :
  acquiring c !! k = Some n → ws c = OPEN →
  granted k true c =
    session true (timeslice c) (recorders c) (tracks c) (delete k (acquiring c))
            (outbox c ++ [AudioConfig (timeSliceMs n)])
            recording false true (Some (length (tracks c))) n.
Proof.
  intros Hk Hws. unfold granted, ws_send, set_isRecording, set_recorder, session.
  rewrite Hk. cbn. rewrite Hws. cbn. by rewrite insert_snoc.
Qed.

Lemma session_data ts rs tr acq out n data :
  data ≠ [] →
  step (session true ts rs tr acq out recording false true (Some (length tr)) n)
       (DataAvailable (length rs) data)
  = session true ts rs tr acq (out ++ [Chunk data]) recording false true
            (Some (length tr)) n.
Proof.
  intros Hd. unfold session. cbn [step recorders]. rewrite lookup_snoc.
  cbn [state stopping]. rewrite decide_True by (by left).
  unfold ondataavailable. rewrite decide_False by (by destruct data).
  cbn [ws]. by rewrite decide_True.
Qed.

Lemma session_stop ts rs tr acq out n :
  step (session true ts rs tr acq out recording false true (Some (length tr)) n) StopIntent
  = session true ts rs tr acq out inactive true true (Some (length tr)) n.
Proof.
  unfold session. cbn [step]. unfold stopRecording, active_recorder.
  cbn [recorderRef recorders]. rewrite lookup_snoc. cbn [state].
  rewrite decide_False by done. unfold set_recorder. cbn.
  by rewrite insert_snoc.
Qed.

Lemma session_stop_event ts rs tr acq out n :
  step (session true ts rs tr acq out inactive true true (Some (length tr)) n)
       (RecorderStop (length rs))
  = session false ts rs tr acq out inactive false false None n.
Proof.
  unfold session. cbn [step recorders]. rewrite lookup_snoc. cbn [stopping].
  unfold onstop, set_isRecording, set_streamRef, stop_tracks, set_recorder. cbn.
  by rewrite !insert_snoc.
Qed.

Lemma capture_run_snoc evs ev : run (evs ++ [ev]) = step (run evs) ev.
Proof. unfold run. by rewrite fold_left_app. Qed.

End CaptureFacts.

(** A stop intent that finds no active recorder and no stored stream, as
    when it comes while [getUserMedia] is pending, only sets [isRecording]
    to false and leaves the pending acquisition in place.  A denial after
    it holds no device and sends nothing.  A grant after it, the socket
    being open, starts the recorder over a live stream and sends the
    [audio-config]; chunks then go out, and a stop intent followed by the
    recorder's [stop] event releases the stream. *)
Theorem stop_during_acquisition c k n :
  Capture.active_recorder c = None → Capture.streamRef c = None →
  Capture.acquiring c !! k = Some n →
  let c1 := Capture.step c Capture.StopIntent in
  c1 = Capture.set_isRecording false c ∧
  (let c2 := Capture.step c1 (Capture.Denied k) in
   Capture.tracks c2 = Capture.tracks c ∧
   Capture.recorders c2 = Capture.recorders c ∧
   Capture.outbox c2 = Capture.outbox c ∧
   Capture.isRecording c2 = false) ∧
  (Capture.ws c = OPEN →
   let r := length (Capture.recorders c) in
   let s := length (Capture.tracks c) in
   let c2 := Capture.step c1 (Capture.Granted k true) in
   Capture.isRecording c2 = true ∧
   Capture.recorders c2 !! r
     = Some (Capture.Recorder Capture.recording s (Some (Capture.start_interval n)) false) ∧
   Capture.tracks c2 !! s = Some true ∧
   Capture.outbox c2 = Capture.outbox c ++ [Capture.AudioConfig (Capture.timeSliceMs n)] ∧
   (∀ data, data ≠ [] →
      Capture.outbox (Capture.step c2 (Capture.DataAvailable r data))
      = Capture.outbox c2 ++ [Capture.Chunk data]) ∧
   let c3 := Capture.step (Capture.step c2 Capture.StopIntent) (Capture.RecorderStop r) in
   Capture.isRecording c3 = false ∧
   Capture.tracks c3 !! s = Some false ∧
   Capture.streamRef c3 = None ∧
   Capture.state <$> Capture.recorders c3 !! r = Some Capture.inactive).
Proof.
  cbn zeta. intros Ha Hs Hk.
  change (Capture.step c Capture.StopIntent) with (Capture.stopRecording c).
  rewrite stopRecording_idle by done. split; [done|]. split.
  - by destruct c.
  - intros Hws.
    change (Capture.step (Capture.set_isRecording false c) (Capture.Granted k true))
      with (Capture.granted k true (Capture.set_isRecording false c)).
    rewrite (granted_open (Capture.set_isRecording false c) k n) by (by destruct c).
    replace (Capture.recorders (Capture.set_isRecording false c))
      with (Capture.recorders c) by (by destruct c).
    replace (Capture.tracks (Capture.set_isRecording false c))
      with (Capture.tracks c) by (by destruct c).
    replace (Capture.outbox (Capture.set_isRecording false c))
      with (Capture.outbox c) by (by destruct c).
    split_and!.
    + done.
    + apply lookup_snoc.
    + apply lookup_snoc.
    + done.
    + intros data Hd. by rewrite session_data.
    + by rewrite session_stop, session_stop_event.
    + rewrite session_stop, session_stop_event. apply lookup_snoc.
    + by rewrite session_stop, session_stop_event.
    + rewrite session_stop, session_stop_event. unfold Capture.session.
      cbn [Capture.recorders]. by rewrite lookup_snoc.
Qed.

Lemma stop_during_acquisition_witness :
  Capture.step (Capture.run press) Capture.StopIntent = Capture.run press ∧
  Capture.isRecording
    (Capture.step (Capture.step (Capture.run press) Capture.StopIntent)
       (Capture.Granted 0 true)) = true.
Proof.
  destruct (stop_during_acquisition (Capture.run press) 0 (Capture.Num 250))
    as (H1 & _ & H3); [reflexivity|reflexivity|reflexivity|].
  split; [rewrite H1; reflexivity|].
  apply (H3 eq_refl).
Defined.

(** C5: the code fails the claim on this run of a connected client: the
    button is pressed, then released while [getUserMedia] is pending, then
    the device is granted.  The stop intent changes nothing; after the
    grant the recorder records, the stream is live, [isRecording] is true,
    and the [audio-config] and a chunk go out. *)
Theorem stop_before_grant_still_streams :
  let pending := Capture.run [Capture.Transport OPEN; Capture.StartIntent] in
  let c := Capture.run [Capture.Transport OPEN; Capture.StartIntent;
                        Capture.StopIntent; Capture.Granted 0 true;
                        Capture.DataAvailable 0 chunk] in
  Capture.acquiring pending = [Capture.Num 250] ∧
  Capture.step pending Capture.StopIntent = pending ∧
  Capture.streaming c = true ∧ Capture.device_held c = true ∧
  Capture.isRecording c = true ∧
  Capture.outbox c = [Capture.AudioConfig (Capture.Num 250); Capture.Chunk chunk].
Proof. vm_compute. done. Qed.

Section CaptureSettings.

Import Capture.



End CaptureSettings.



(** * Further properties of the relay *)

(** X1: in every reachable registry a socket is a member of at most one
    room, a room lists no socket twice and has a non-empty id, and the back
    reference of a socket names a room exactly when the socket is a member
    of that room. *)
Theorem one_room_per_socket JSON_parse evs :
  let st := after JSON_parse evs in
  (∀ R R' m m' s, rooms st !! R = Some m → rooms st !! R' = Some m' →
     s ∈ m → s ∈ m' → R = R') ∧
  (∀ R m, rooms st !! R = Some m → NoDup m ∧ R ≠ ""%string) ∧
  (∀ s R, socketToRoom st !! s = Some R ↔ ∃ m, rooms st !! R = Some m ∧ s ∈ m).
Proof.
  cbn zeta. destruct (consistent_after JSON_parse evs) as [Hnd Hsz Hrb Hbr].
  split_and!.
  - intros R R' m m' s Hm Hm' Hs Hs'.
    pose proof (Hrb _ _ _ Hm Hs) as H1. pose proof (Hrb _ _ _ Hm' Hs') as H2.
    congruence.
  - intros R m Hm. split; [eauto|].
    pose proof (Hsz _ _ Hm) as Hlen. destruct m as [|s m]; [cbn in Hlen; lia|].
    eapply (Hbr s), (Hrb _ _ _ Hm). apply list_elem_of_here.
  - intros s R. split.
    + intros Hs. by destruct (Hbr _ _ Hs).
    + intros (m & Hm & Hs). eauto.
Qed.

Lemma one_room_per_socket_witness :
  socketToRoom (after JsonText.JSON_parse two_in_abc) !! 2 = Some "abc"%string ∧
  ("abc" ≠ "")%string.
Proof.
  destruct (one_room_per_socket JsonText.JSON_parse two_in_abc) as (_ & H2 & H3).
  assert (rooms (after JsonText.JSON_parse two_in_abc) !! "abc"%string = Some [1; 2])
    as Ha by (vm_compute; reflexivity).
  split.
  - apply H3. exists [1; 2]. split; [exact Ha|].
    apply list_elem_of_further, list_elem_of_here.
  - exact (proj2 (H2 _ _ Ha)).
Defined.

(** X2: a join whose room is missing, [null] or blank after trimming is
    answered with the [invalid-room] error and nothing else: the frame is
    not relayed and the registry, the sender's current membership included,
    stays as it was. *)
Theorem invalid_join_changes_nothing readyState JSON_parse c data st payload room :
  JSON_parse (toString data) = Some payload →
  get_prop payload "type" = Normal (Some (JStr "join")) →
  get_prop payload "room" = Normal room →
  room = None ∨ room = Some JNull ∨ (∃ s, room = Some (JStr s) ∧ trim s = ""%string) →
  readyState c = OPEN →
  on_message readyState JSON_parse c data false st
  = Run (Normal tt) st [(c, Json (ErrorMsg "invalid-room" "Room is required."))].
Proof.
  intros Hp Ht Hr Hroom Hopen.
  rewrite (on_message_join_consumed readyState JSON_parse c data st payload
             (Some (JStr "join")) room) by
    (try done; destruct Hroom as [->|[->|(s & -> & _)]]; by intros []).
  rewrite joinRoom_invalid by done. cbn [final sends].
  unfold deliveries. by rewrite filter_cons_True, filter_nil.
Qed.

Lemma invalid_join_changes_nothing_witness :
  on_message all_open JsonText.JSON_parse 1 join_without_room false
    (after JsonText.JSON_parse two_in_abc)
  = Run (Normal tt) (after JsonText.JSON_parse two_in_abc)
        [(1, Json (ErrorMsg "invalid-room" "Room is required."))].
Proof.
  apply (invalid_join_changes_nothing all_open JsonText.JSON_parse 1 join_without_room
           (after JsonText.JSON_parse two_in_abc)
           (JObj [("type"%string, JStr "join")]) None).
  - vm_compute. reflexivity.
  - reflexivity.
  - reflexivity.
  - by left.
  - reflexivity.
Defined.

(** X3: when a connection closes, its socket ends in no room and without a
    back reference; its room loses exactly that socket and is deleted if
    nobody is left; the members left are each sent a [room-state] with the
    number of members left; every other room is untouched. *)
Theorem close_detaches JSON_parse evs readyState c :
  let st := after JSON_parse evs in
  let r := on_close readyState c st in
  outcome r = Normal tt ∧
  socketToRoom (final r) !! c = None ∧
  (∀ R m, rooms (final r) !! R = Some m → c ∉ m) ∧
  (∀ R m, rooms st !! R = Some m → c ∈ m →
     let left := Set_delete c m in
     rooms (final r) !! R = (if decide (left = []) then None else Some left) ∧
     sends r = deliveries readyState left (Json (RoomState R (length left) 2))) ∧
  (∀ R m, rooms st !! R = Some m → c ∉ m → rooms (final r) !! R = Some m) ∧
  ((∀ R m, rooms st !! R = Some m → c ∉ m) → final r = st ∧ sends r = []).
Proof.
  cbn zeta. pose proof (consistent_after JSON_parse evs) as Hst.
  set (st := after JSON_parse evs) in *.
  rewrite on_close_run. cbn [outcome final sends].
  destruct (consistent_leave readyState c st Hst) as [Hmid Hgone].
  split_and!; [done|done| | | |].
  - by apply unattached_iff.
  - intros R m Hm Hin. cbn zeta. rewrite leave_rooms, Hm by done. split; [done|].
    rewrite leave_sends, (rooms_back _ Hst _ _ _ Hm Hin) by done. cbn zeta.
    by rewrite Hm.
  - intros R m Hm Hin. rewrite leave_rooms, Hm by done.
    rewrite Set_delete_absent by done. rewrite decide_False; [done|].
    intros ->. pose proof (rooms_size _ Hst _ _ Hm) as Hsz. cbn in Hsz. lia.
  - intros Hnone. apply (unattached_iff c st Hst) in Hnone.
    by rewrite leaveRoom_none.
Qed.

Lemma close_detaches_witness :
  rooms (final (on_close all_open 1 (after JsonText.JSON_parse two_in_abc)))
    !! "abc"%string = Some [2] ∧
  sends (on_close all_open 1 (after JsonText.JSON_parse two_in_abc))
  = [(2, Json (RoomState "abc" 1 2))].
Proof.
  destruct (close_detaches JsonText.JSON_parse two_in_abc all_open 1)
    as (_ & _ & _ & H & _).
  destruct (H "abc"%string [1; 2]) as [Hr Hs].
  - vm_compute. reflexivity.
  - apply list_elem_of_here.
  - split; [etrans; [exact Hr|]|etrans; [exact Hs|]]; vm_compute; reflexivity.
Defined.

(** X4: a [leave] message does to the registry, and sends, what the close
    of the connection does. *)
Theorem leave_message_is_close readyState JSON_parse c data st payload :
  JSON_parse (toString data) = Some payload →
  get_prop payload "type" = Normal (Some (JStr "leave")) →
  on_message readyState JSON_parse c data false st = on_close readyState c st.
Proof.
  intros Hp Ht. rewrite on_close_run.
  by apply (on_message_leave readyState JSON_parse c data st payload
              (Some (JStr "leave"))).
Qed.

Lemma leave_message_is_close_witness :
  on_message all_open JsonText.JSON_parse 1 leave_text false
    (after JsonText.JSON_parse two_in_abc)
  = on_close all_open 1 (after JsonText.JSON_parse two_in_abc).
Proof.
  apply (leave_message_is_close all_open JsonText.JSON_parse 1 leave_text
           (after JsonText.JSON_parse two_in_abc)
           (JObj [("type"%string, JStr "leave")])).
  - vm_compute. reflexivity.
  - reflexivity.
Defined.

Lemma elem_of_deliveries_iff readyState members f to g :
  (to, g) ∈ deliveries readyState members f ↔
  to ∈ members ∧ readyState to = OPEN ∧ g = f.
Proof.
  split; [apply elem_of_deliveries|]. intros (Hin & Hopen & ->).
  unfold deliveries. apply list_elem_of_fmap. exists to. split; [done|].
  by apply list_elem_of_filter.
Qed.

(** X5: a member of room R that joins another room with a free place
    leaves R first: R loses exactly that socket (and is deleted if it was
    alone), the members left in R are told the new count, then the socket
    is appended to the target room and all of its members are told theirs. *)
Theorem join_switches_room JSON_parse evs readyState c room R m :
  let st := after JSON_parse evs in
  let R' := trim room in
  rooms st !! R = Some m → c ∈ m →
  R' ≠ ""%string → R' ≠ R →
  (∀ m', rooms st !! R' = Some m' → length m' < ROOM_LIMIT) →
  let r := joinRoom readyState c (Some (JStr room)) st in
  let left := Set_delete c m in
  let target := default [] (rooms st !! R') in
  rooms (final r) !! R = (if decide (left = []) then None else Some left) ∧
  rooms (final r) !! R' = Some (target ++ [c]) ∧
  socketToRoom (final r) !! c = Some R' ∧
  sends r = deliveries readyState left (Json (RoomState R (length left) 2)) ++
            deliveries readyState (target ++ [c])
              (Json (RoomState R' (S (length target)) 2)).
Proof.
  cbn zeta. intros Hm Hin HR' Hne Hfree.
  pose proof (consistent_after JSON_parse evs) as Hst.
  set (st := after JSON_parse evs) in *.
  pose proof (rooms_back _ Hst _ _ _ Hm Hin) as Hs.
  assert (peers_of c st (trim room) = default [] (rooms st !! trim room)) as Hp.
  { unfold peers_of. apply Set_delete_absent.
    destruct (rooms st !! trim room) as [m'|] eqn:Hm'; cbn [from_option id].
    - intros Hc. pose proof (rooms_back _ Hst _ _ _ Hm' Hc). congruence.
    - apply not_elem_of_nil. }
  assert (length (peers_of c st (trim room)) < ROOM_LIMIT) as Hlt.
  { rewrite Hp. destruct (rooms st !! trim room) as [m'|] eqn:Hm'; cbn [from_option id].
    - by apply Hfree.
    - unfold ROOM_LIMIT. cbn. lia. }
  rewrite (join_accepted readyState c st room Hst HR' Hlt). cbn zeta.
  cbn [final sends rooms socketToRoom]. rewrite Hp.
  rewrite lookup_insert_ne by done. rewrite !lookup_insert_eq.
  rewrite leave_rooms, Hm by done.
  rewrite leave_sends, Hs by done. cbn zeta. rewrite Hm. cbn [from_option id].
  split_and!; try done.
  rewrite length_app. cbn [length]. unfold ROOM_LIMIT.
  by replace (length (default [] (rooms st !! trim room)) + 1)
    with (S (length (default [] (rooms st !! trim room)))) by lia.
Qed.

Lemma join_switches_room_witness :
  sends (joinRoom all_open 2 (Some (JStr "x"))
           (after JsonText.JSON_parse two_in_abc))
  = [ (1, Json (RoomState "abc" 1 2));
      (3, Json (RoomState "x" 2 2)); (2, Json (RoomState "x" 2 2)) ].
Proof.
  assert (trim "x" = "x"%string) as Et by (vm_compute; reflexivity).
  destruct (join_switches_room JsonText.JSON_parse two_in_abc all_open 2 "x"
              "abc" [1; 2]) as (_ & _ & _ & H).
  - vm_compute. reflexivity.
  - apply list_elem_of_further, list_elem_of_here.
  - vm_compute. discriminate.
  - vm_compute. discriminate.
  - intros m' Hm'. rewrite Et in Hm'. vm_compute in Hm'. injection Hm' as <-.
    vm_compute. lia.
  - etrans; [exact H|]. vm_compute. reflexivity.
Defined.

Lemma relay_recipients readyState sender data isBinary st to f :
  consistent st →
  (to, f) ∈ sends (broadcastToRoom readyState sender data isBinary st) ↔
  f = Raw data isBinary ∧ to ≠ sender ∧ readyState to = OPEN ∧
  ∃ R m, rooms st !! R = Some m ∧ sender ∈ m ∧ to ∈ m.
Proof.
  intros Hst. destruct (socketToRoom st !! sender) as [R|] eqn:Hs.
  - destruct (back_rooms _ Hst _ _ Hs) as (HR & m & Hm & Hin).
    rewrite (broadcastToRoom_some _ _ _ _ _ _ _ Hs HR Hm). cbn [sends].
    rewrite elem_of_deliveries_iff, elem_of_Set_delete. split.
    + intros ((Hto & Hne) & Hopen & ->). eauto 10.
    + intros (-> & Hne & Hopen & R' & m' & Hm' & Hin' & Hto).
      pose proof (rooms_back _ Hst _ _ _ Hm' Hin') as Hs'.
      rewrite Hs in Hs'. injection Hs' as <-. rewrite Hm in Hm'.
      injection Hm' as <-. done.
  - rewrite broadcastToRoom_none by done. cbn [sends].
    split; [by intros ?%elem_of_nil|].
    intros (_ & _ & _ & R & m & Hm & Hin & _).
    pose proof (rooms_back _ Hst _ _ _ Hm Hin). congruence.
Qed.

(** X6: the frames [broadcastToRoom] sends are exactly one copy of the
    payload, with the binary flag as given, for each socket other than the
    sender that shares the sender's room and has an open transport; no
    socket of another room, and not the sender, gets any. *)
Theorem relay_stays_in_room JSON_parse evs readyState sender data isBinary :
  let st := after JSON_parse evs in
  let out := sends (broadcastToRoom readyState sender data isBinary st) in
  NoDup out ∧
  ∀ to f,
    (to, f) ∈ out ↔
    f = Raw data isBinary ∧ to ≠ sender ∧ readyState to = OPEN ∧
    ∃ R m, rooms st !! R = Some m ∧ sender ∈ m ∧ to ∈ m.
Proof.
  cbn zeta. pose proof (consistent_after JSON_parse evs) as Hst.
  set (st := after JSON_parse evs) in *.
  split; [|intros to f; by apply relay_recipients].
  destruct (socketToRoom st !! sender) as [R|] eqn:Hs.
  - destruct (back_rooms _ Hst _ _ Hs) as (HR & m & Hm & Hin).
    rewrite (broadcastToRoom_some _ _ _ _ _ _ _ Hs HR Hm). cbn [sends].
    unfold deliveries. apply NoDup_fmap_2; [by intros ?? [= ->]|].
    apply NoDup_filter. unfold Set_delete. apply NoDup_filter.
    by eapply rooms_nodup.
  - rewrite broadcastToRoom_none by done. apply NoDup_nil_2.
Qed.

Lemma relay_stays_in_room_witness :
  (3, Raw chunk true) ∉
    sends (broadcastToRoom all_open 1 chunk true (after JsonText.JSON_parse two_in_abc)).
Proof.
  destruct (relay_stays_in_room JsonText.JSON_parse two_in_abc all_open 1 chunk true)
    as [_ H].
  intros Hin. apply H in Hin as (_ & _ & _ & R & m & Hm & H1 & H3).
  pose proof (rooms_back _ (consistent_after _ _) _ _ _ Hm H1) as E1.
  pose proof (rooms_back _ (consistent_after _ _) _ _ _ Hm H3) as E3.
  vm_compute in E1, E3. congruence.
Defined.

(** X7: the message handler never throws, whatever the frame, the parser's
    answer and the registry: a failed parse, a [null] payload and the
    TypeError of a room without [trim] all end in the [catch]. *)
Theorem message_handler_never_throws readyState JSON_parse c data isBinary st :
  outcome (on_message readyState JSON_parse c data isBinary st) = Normal tt.
Proof.
  destruct (on_message_cases readyState JSON_parse c data isBinary st)
    as [E|[[room E]|E]]; rewrite E; [|done|done].
  apply broadcastToRoom_pure.
Qed.

Lemma leave_sends_open readyState c st to f :
  consistent st → (to, f) ∈ sends (leaveRoom readyState c st) → readyState to = OPEN.
Proof.
  intros Hst. rewrite leave_sends by done.
  destruct (socketToRoom st !! c); [|by intros ?%elem_of_nil].
  cbn zeta. intros H%elem_of_deliveries. tauto.
Qed.

Lemma join_sends_open readyState c room st to f :
  consistent st → (to, f) ∈ sends (joinRoom readyState c room st) → readyState to = OPEN.
Proof.
  intros Hst.
  destruct room as [[| | |s| |]|];
    try (rewrite joinRoom_throws by done; by intros ?%elem_of_nil);
    try (rewrite joinRoom_invalid by eauto; cbn [sends];
         intros H%elem_of_deliveries; tauto).
  destruct (decide (trim s = ""%string)) as [E|E].
  { rewrite joinRoom_invalid by eauto. cbn [sends].
    intros H%elem_of_deliveries. tauto. }
  rewrite joinRoom_string by done. cbn zeta.
  case_decide; cbn [sends]; intros [Hin|Hin]%elem_of_app;
    try (by eapply leave_sends_open);
    apply elem_of_deliveries in Hin; tauto.
Qed.

(** X8: whatever the event, every frame its handler sends, notification or
    relayed payload, goes to a socket whose [readyState] is OPEN at that
    moment. *)
Theorem frames_go_to_open_sockets JSON_parse evs ev to f :
  (to, f) ∈ sends (handle JSON_parse ev (after JSON_parse evs)) →
  transport_of ev to = OPEN.
Proof.
  pose proof (consistent_after JSON_parse evs) as Hst.
  set (st := after JSON_parse evs) in *.
  destruct ev as [rs c data isBinary|rs c]; cbn [handle transport_of].
  - destruct (on_message_cases rs JSON_parse c data isBinary st)
      as [E|[[room E]|E]]; rewrite E; cbn [sends].
    + intros Hin.
      destruct (socketToRoom st !! c) as [R|] eqn:Hs.
      * destruct (back_rooms _ Hst _ _ Hs) as (HR & m & Hm & _).
        rewrite (broadcastToRoom_some _ _ _ _ _ _ _ Hs HR Hm) in Hin.
        apply elem_of_deliveries in Hin. tauto.
      * rewrite broadcastToRoom_none in Hin by done. by apply elem_of_nil in Hin.
    + by apply join_sends_open.
    + by apply leave_sends_open.
  - rewrite on_close_run. cbn [sends]. by apply leave_sends_open.
Qed.

Lemma frames_go_to_open_sockets_witness :
  (fun s => if decide (s = 2) then CLOSING else OPEN) 1 = OPEN.
Proof.
  apply (frames_go_to_open_sockets JsonText.JSON_parse two_in_abc
           (Close (fun s => if decide (s = 2) then CLOSING else OPEN) 2)
           1 (Json (RoomState "abc" 1 2))).
  vm_compute. apply list_elem_of_here.
Defined.

(** X9: [broadcast] of the first revision sends one copy of the frame to
    each client that is not the sender and has an open transport, and to
    nobody else; it changes no state.  Every frame the room relay sends to
    a connected client is one [broadcast] would send too. *)
Theorem broadcast_reaches_open_clients JSON_parse evs readyState clients sender data isBinary :
  let st := after JSON_parse evs in
  let r := broadcast readyState clients sender data isBinary st in
  outcome r = Normal tt ∧ final r = st ∧
  (∀ to f, (to, f) ∈ sends r ↔
     to ∈ clients ∧ to ≠ sender ∧ readyState to = OPEN ∧ f = Raw data isBinary) ∧
  (∀ to f, (to, f) ∈ sends (broadcastToRoom readyState sender data isBinary st) →
     to ∈ clients → (to, f) ∈ sends r).
Proof.
  cbn zeta. unfold broadcast. rewrite for_of_relay. cbn [outcome final sends].
  assert (∀ to f, (to, f) ∈ deliveries readyState (Set_delete sender clients)
                               (Raw data isBinary)
                  ↔ to ∈ clients ∧ to ≠ sender ∧ readyState to = OPEN
                    ∧ f = Raw data isBinary) as Hiff.
  { intros to f. rewrite elem_of_deliveries_iff, elem_of_Set_delete. tauto. }
  split_and!; [done|done|exact Hiff|].
  intros to f Hin Hto. apply Hiff.
  apply relay_recipients in Hin; [tauto|apply consistent_after].
Qed.

Lemma broadcast_reaches_open_clients_witness :
  (2, Raw chunk true) ∈
    sends (broadcast all_open [1; 2; 3] 1 chunk true (after JsonText.JSON_parse two_in_abc)).
Proof.
  destruct (broadcast_reaches_open_clients JsonText.JSON_parse two_in_abc all_open
              [1; 2; 3] 1 chunk true) as (_ & _ & H & _).
  apply H. split; [apply list_elem_of_further, list_elem_of_here|].
  split; [discriminate|]. split; reflexivity.
Defined.

(** * Further properties of the client *)

Lemma log_after_snoc es e :
  App.log_after (es ++ [e]) = App.appendLog e (App.log_after es).
Proof. unfold App.log_after. by rewrite fold_left_app. Qed.

(** X10: the activity log always holds the eight most recent entries at
    most, the newest first: after any number of [appendLog] it is the first
    eight of the entries in reverse order of arrival. *)
Theorem log_keeps_newest_eight es :
  App.log_after es = take 8 (rev es) ∧ length (App.log_after es) ≤ 8.
Proof.
  assert (App.log_after es = take 8 (rev es)) as E.
  { induction es as [|e es IH] using rev_ind; [done|].
    rewrite log_after_snoc, IH, rev_unit. unfold App.appendLog.
    change (take 8 (e :: take 8 (rev es))) with (e :: take 7 (take 8 (rev es))).
    by rewrite take_take. }
  split; [done|]. rewrite E, length_take. lia.
Qed.

Lemma first_of_filter {A} (P : A → Prop) `{∀ x, Decision (P x)} (l : list A) t rest :
  filter P l = t :: rest →
  ∃ before behind, l = before ++ t :: behind ∧ Forall (fun x => ¬ P x) before.
Proof.
  induction l as [|x l IH]; intros E; [done|].
  rewrite filter_cons in E. destruct (decide (P x)) as [Hx|Hx].
  - injection E as -> _. by exists [], l.
  - destruct (IH E) as (before & behind & -> & Hb).
    exists (x :: before), behind. split; [done|]. by constructor.
Qed.

(** X11: when the browser supports at least one candidate format, the
    selection the effect leaves is a candidate the browser supports; a
    selection that is supported is kept, any other is replaced by the
    first supported candidate in the order of [MIME_CANDIDATES]. *)
Theorem selected_type_is_supported has_MediaRecorder isTypeSupported prev :
  let sup := App.supported has_MediaRecorder isTypeSupported in
  let type := App.next_selectedType sup prev in
  sup ≠ [] →
  type ∈ sup ∧ type ∈ App.MIME_CANDIDATES ∧ isTypeSupported type = true ∧
  (prev ∈ sup → type = prev) ∧
  (prev ∉ sup →
     ∃ before behind,
       App.MIME_CANDIDATES = before ++ type :: behind ∧
       Forall (fun t => isTypeSupported t ≠ true) before).
Proof.
  cbn zeta. intros Hne.
  assert (∀ t, t ∈ App.supported has_MediaRecorder isTypeSupported →
               t ∈ App.MIME_CANDIDATES ∧ isTypeSupported t = true) as Hsup.
  { intros t. unfold App.supported. destruct has_MediaRecorder.
    - rewrite list_elem_of_filter. tauto.
    - by intros ?%elem_of_nil. }
  destruct (App.supported has_MediaRecorder isTypeSupported) as [|first sup] eqn:E;
    [done|].
  unfold App.next_selectedType.
  destruct (decide (prev ∈ first :: sup)) as [Hin|Hout].
  - destruct (Hsup _ Hin). split_and!; done.
  - destruct (Hsup first) as [? ?]; [apply list_elem_of_here|].
    split_and!; [apply list_elem_of_here|done|done|done|].
    intros _. unfold App.supported in E. destruct has_MediaRecorder; [|done].
    by apply first_of_filter in E.
Qed.

Lemma selected_type_is_supported_witness :
  App.next_selectedType
    (App.supported true (fun t => bool_decide (t = "audio/ogg"%string))) ""
  = "audio/ogg"%string.
Proof.
  destruct (selected_type_is_supported true
              (fun t => bool_decide (t = "audio/ogg"%string)) "")
    as (_ & _ & H & _).
  - vm_compute. discriminate.
  - apply bool_decide_eq_true in H. exact H.
Defined.

Section PlaybackMore.

Import Playback.

Lemma settle_is_resolve q i ev :
  ev ∈ [Ended i; Errored i; PlayRejected i] → step q ev = resolve i q.
Proof.
  intros Hev. repeat (apply elem_of_cons in Hev as [->|Hev]; [done|]).
  by apply elem_of_nil in Hev.
Qed.

Lemma resolve_twice k n playing q i :
  chain_shape k n playing q → resolve i (resolve i q) = resolve i q.
Proof.
  intros Hq.
  destruct (decide ((status <$> slots q) !! i = Some Playing)) as [Hi|Hi].
  - destruct playing.
    2:{ destruct Hq as [Hs _]. rewrite Hs, app_nil_r in Hi.
        apply lookup_replicate in Hi as [? _]. done. }
    pose proof (shape_playing_index k n q i Hq Hi) as ->.
    destruct (shape_resolve k n q k Hq Hi) as [Hs' _].
    apply resolve_not_playing. rewrite Hs'.
    rewrite lookup_app_l by (rewrite length_replicate; lia).
    intros [? _]%lookup_replicate. done.
  - rewrite (resolve_not_playing q i Hi). by rewrite (resolve_not_playing q i Hi).
Qed.

Lemma shape_playing_lookup k n q :
  chain_shape k n true q → (status <$> slots q) !! k = Some Playing.
Proof.
  intros [Hs _]. rewrite Hs, lookup_app_r by (rewrite length_replicate; lia).
  by rewrite length_replicate, Nat.sub_diag.
Qed.

Lemma shape_length k n playing q :
  chain_shape k n playing q →
  length (slots q) = k + (if playing then S n else 0) ∧
  first_unsettled (slots q) = k.
Proof.
  intros [Hs _]. split.
  - rewrite <- (length_fmap status), Hs, length_app, length_replicate.
    destruct playing; cbn; by rewrite ?length_replicate.
  - apply (first_unsettled_settled k _ _ Hs). by destruct playing.
Qed.

Lemma ended_in_turn n : ∀ k q,
  chain_shape k n true q →
  chain_shape (k + S n) 0 false (fold_left step (Ended <$> seq k (S n)) q).
Proof.
  induction n as [|n IH]; intros k q Hq.
  - cbn. replace (k + 1) with (S k) by lia.
    apply (shape_resolve k 0 q k Hq). by eapply shape_playing_lookup.
  - change (Ended <$> seq k (S (S n))) with (Ended k :: (Ended <$> seq (S k) (S n))).
    cbn [fold_left step]. replace (k + S (S n)) with (S k + S n) by lia.
    apply IH. apply (shape_resolve k (S n) q k Hq). by eapply shape_playing_lookup.
Qed.

Lemma ended_content l : ∀ q,
  content <$> slots (fold_left step (Ended <$> l) q) = content <$> slots q.
Proof.
  induction l as [|j l IH]; intros q; [done|].
  cbn [fmap list_fmap fold_left step]. rewrite IH. apply resolve_content.
Qed.

End PlaybackMore.

(** X12: [onerror] and the rejection of [play()] both call [resolve] for
    the same audio, and [onended] may follow; after the first of them a
    further one for the same slot changes nothing. *)
Theorem second_settle_is_ignored evs i ev1 ev2 :
  let q := Playback.run evs in
  ev1 ∈ [Playback.Ended i; Playback.Errored i; Playback.PlayRejected i] →
  ev2 ∈ [Playback.Ended i; Playback.Errored i; Playback.PlayRejected i] →
  Playback.step (Playback.step q ev1) ev2 = Playback.step q ev1.
Proof.
  cbn zeta. intros H1 H2. destruct (shape_run evs) as (k & n & playing & Hq).
  rewrite (settle_is_resolve _ i ev2 H2), (settle_is_resolve _ i ev1 H1).
  by eapply resolve_twice.
Qed.

Lemma second_settle_is_ignored_witness :
  Playback.run [Playback.Binary chunk "audio/webm"; Playback.Errored 0;
                Playback.PlayRejected 0]
  = Playback.run [Playback.Binary chunk "audio/webm"; Playback.Errored 0].
Proof.
  apply (second_settle_is_ignored [Playback.Binary chunk "audio/webm"] 0
           (Playback.Errored 0) (Playback.PlayRejected 0)).
  - apply list_elem_of_further, list_elem_of_here.
  - apply list_elem_of_further, list_elem_of_further, list_elem_of_here.
Defined.

(** X13: the chain drains: from any reachable state, once the playing slot
    and then each slot after it has ended in its turn, every slot is
    settled and the timeline is the full chronicle of all chunks received,
    in arrival order. *)
Theorem chain_drains evs :
  let q := Playback.run evs in
  let k := Playback.first_unsettled (Playback.slots q) in
  let N := length (Playback.slots q) in
  let q' := fold_left Playback.step (Playback.Ended <$> seq k (N - k)) q in
  Forall (fun s => Playback.status s = Playback.Settled) (Playback.slots q') ∧
  Playback.timeline q' = Playback.chronicle N ∧
  Playback.content <$> Playback.slots q' = Playback.arrivals evs.
Proof.
  cbn zeta. destruct (shape_run evs) as (k & n & playing & Hq).
  pose proof (run_content evs) as Hc.
  set (q := Playback.run evs) in *.
  destruct (shape_length k n playing q Hq) as [Hlen ->]. rewrite Hlen.
  assert (∃ q', fold_left Playback.step
                  (Playback.Ended <$> seq k (k + (if playing then S n else 0) - k)) q = q'
                ∧ Playback.chain_shape (k + (if playing then S n else 0)) 0 false q'
                ∧ Playback.content <$> Playback.slots q'
                  = Playback.content <$> Playback.slots q)
    as (q' & -> & [Hs Ht] & Hc').
  { eexists. split; [done|]. split; [|apply ended_content].
    destruct playing.
    - replace (k + S n - k) with (S n) by lia. by apply ended_in_turn.
    - replace (k + 0 - k) with 0 by lia. by replace (k + 0) with k by lia. }
  split_and!.
  - rewrite app_nil_r in Hs. apply Forall_forall. intros s Hin.
    assert (Playback.status s ∈ Playback.status <$> Playback.slots q') as Hst
      by (by apply list_elem_of_fmap_2).
    rewrite Hs in Hst. by apply elem_of_replicate in Hst as [? _].
  - by rewrite Ht, app_nil_r.
  - by rewrite Hc'.
Qed.

Section CaptureMore.

Import Capture.

Lemma existsb_snoc {A} (f : A → bool) l x : existsb f (l ++ [x]) = existsb f l || f x.
Proof. rewrite existsb_app. cbn. by rewrite orb_false_r. Qed.

(** What a grant does: the new stream is live exactly when the recorder
    was built and the [send] of the [audio-config] did not throw. *)
Lemma granted_effect c k n ok :
  acquiring c !! k = Some n →
  let started := ok && negb (bool_decide (ws c = CONNECTING)) in
  tracks (granted k ok c) = tracks c ++ [started] ∧
  recorders (granted k ok c)
  = recorders c ++
    (if ok then
       [if started
        then Recorder recording (length (tracks c)) (Some (start_interval n)) false
        else Recorder inactive (length (tracks c)) None false]
     else []) ∧
  outbox (granted k ok c)
  = outbox c ++
    (if ok && bool_decide (ws c = OPEN) then [AudioConfig (timeSliceMs n)] else []) ∧
  isRecording (granted k ok c) = (if started then true else isRecording c) ∧
  acquiring (granted k ok c) = delete k (acquiring c).
Proof.
  intros Hk. unfold granted. rewrite Hk.
  destruct ok; [|cbn; by rewrite insert_snoc, !app_nil_r].
  unfold ws_send, set_isRecording, set_recorder, stop_tracks.
  destruct (ws c) eqn:Hws; cbn; rewrite ?Hws; cbn;
    rewrite ?insert_snoc, ?app_nil_r; by repeat case_bool_decide.
Qed.

Lemma owned_stop_tracks s c : owned c → owned (stop_tracks s c).
Proof.
  intros Hc s' Hs'. cbn in Hs'. apply Hc.
  destruct (decide (s' = s)) as [->|Hne].
  - destruct (decide (s < length (tracks c))) as [Hlt|Hge].
    + by rewrite list_lookup_insert_eq in Hs'.
    + by rewrite list_insert_ge in Hs' by lia.
  - by rewrite list_lookup_insert_ne in Hs'.
Qed.

Lemma owned_same_recorders c c' :
  recorders c' = recorders c → tracks c' = tracks c → owned c → owned c'.
Proof. intros Hr Ht Hc s. rewrite Hr, Ht. apply Hc. Qed.

(** Replacing recorder [r] keeps ownership when the new record still
    counts, or when its stream is no longer live. *)
Lemma owned_set_recorder r old new c :
  recorders c !! r = Some old → stream new = stream old →
  (state new = recording ∨ stopping new = true ∨ tracks c !! stream old ≠ Some true) →
  owned c → owned (set_recorder r new c).
Proof.
  intros Hr Hstream Hnew Hc s Hs. cbn in Hs. destruct (Hc s Hs) as (r0 & rec0 & Hr0 & Hs0 & Hact).
  destruct (decide (r0 = r)) as [->|Hne].
  - rewrite Hr in Hr0. injection Hr0 as <-. exists r, new. cbn.
    rewrite list_lookup_insert_eq by (by eapply lookup_lt_Some).
    split; [done|]. split; [congruence|].
    destruct Hnew as [?|[?|Hdead]]; [tauto|tauto|]. subst s. done.
  - exists r0, rec0. cbn. by rewrite list_lookup_insert_ne.
Qed.

Lemma owned_settle r rec new c flag :
  recorders c !! r = Some rec →
  owned c →
  owned (set_isRecording flag (set_streamRef None
           (stop_tracks (stream rec) (set_recorder r new c)))).
Proof.
  intros Hr Hc s Hs. cbn in Hs.
  assert (s ≠ stream rec ∧ tracks c !! s = Some true) as [Hne Hlive].
  { destruct (decide (s = stream rec)) as [->|Hne].
    - destruct (decide (stream rec < length (tracks c))) as [Hlt|Hge].
      + by rewrite list_lookup_insert_eq in Hs.
      + rewrite list_insert_ge in Hs by lia. apply lookup_lt_Some in Hs. lia.
    - by rewrite list_lookup_insert_ne in Hs. }
  destruct (Hc s Hlive) as (r0 & rec0 & Hr0 & Hs0 & Hact).
  exists r0, rec0. cbn. split; [|done].
  rewrite list_lookup_insert_ne; [done|]. intros <-. congruence.
Qed.

Lemma owned_step c ev : owned c → owned (step c ev).
Proof.
  intros Hc. destruct ev as [| |k ok|k|r data|r|r|st|n]; cbn [step].
  - unfold startRecording. destruct (isRecording c); [done|]. by case_decide.
  - unfold stopRecording, active_recorder.
    destruct (recorderRef c) as [r|] eqn:Hrr.
    + destruct (recorders c !! r) as [rec|] eqn:Hr.
      * destruct (decide (state rec = inactive)) as [Hin|Hact].
        -- destruct (streamRef c) as [s|]; [|done].
           eapply owned_same_recorders; [| |by apply (owned_stop_tracks s)]; done.
        -- eapply owned_set_recorder; eauto.
      * destruct (streamRef c) as [s|]; [|done].
        eapply owned_same_recorders; [| |by apply (owned_stop_tracks s)]; done.
    + destruct (streamRef c) as [s|]; [|done].
      eapply owned_same_recorders; [| |by apply (owned_stop_tracks s)]; done.
  - destruct (acquiring c !! k) as [n|] eqn:Hk;
      [|unfold granted; by rewrite Hk].
    destruct (granted_effect c k n ok Hk) as (Ht & Hr & _).
    intros s Hs. rewrite Ht in Hs. rewrite Hr.
    destruct (decide (s < length (tracks c))) as [Hlt|Hge].
    + rewrite lookup_app_l in Hs by done.
      destruct (Hc s Hs) as (r0 & rec0 & Hr0 & ?). exists r0, rec0.
      split; [|done]. by apply lookup_app_l_Some.
    + assert (s = length (tracks c)) as ->.
      { apply lookup_lt_Some in Hs. rewrite length_app in Hs. cbn in Hs. lia. }
      rewrite lookup_snoc in Hs. injection Hs as Hstarted.
      destruct ok; [|done]. cbn [andb] in Hstarted. rewrite Hstarted.
      eexists _, _. rewrite lookup_snoc. split; [done|]. split; [done|by left].
  - done.
  - destruct (recorders c !! r) as [rec|]; [|done]. case_decide; [|done].
    unfold ondataavailable. case_decide; [done|]. case_decide; [|done].
    unfold ws_send. by destruct (ws c).
  - destruct (recorders c !! r) as [rec|] eqn:Hr; [|done].
    destruct (stopping rec); [|done]. unfold onstop. by apply owned_settle.
  - destruct (recorders c !! r) as [rec|] eqn:Hr; [|done].
    case_decide; [|done]. unfold onerror. by apply owned_settle.
  - done.
  - done.
Qed.

Lemma owned_run evs : owned (run evs).
Proof.
  induction evs as [|ev evs IH] using rev_ind.
  - intros s Hs. done.
  - rewrite capture_run_snoc. by apply owned_step.
Qed.

End CaptureMore.

(** X14: when the start sequence fails after the grant, because
    [new MediaRecorder] throws or because [send] throws on a socket that is
    still connecting, the [catch] stops the tracks of the stream just
    granted: no device is left held by it, nothing is sent, nothing starts
    recording and [isRecording] keeps its value. *)
Theorem failed_start_releases_stream c k n recorder_ok :
  Capture.acquiring c !! k = Some n →
  recorder_ok = false ∨ Capture.ws c = CONNECTING →
  let c' := Capture.step c (Capture.Granted k recorder_ok) in
  Capture.tracks c' = Capture.tracks c ++ [false] ∧
  Capture.device_held c' = Capture.device_held c ∧
  Capture.streaming c' = Capture.streaming c ∧
  Capture.outbox c' = Capture.outbox c ∧
  Capture.isRecording c' = Capture.isRecording c ∧
  Capture.acquiring c' = delete k (Capture.acquiring c).
Proof.
  cbn zeta. intros Hk Hfail. cbn [Capture.step].
  destruct (granted_effect c k n recorder_ok Hk) as (Ht & Hr & Ho & Hi & Ha).
  assert (recorder_ok && negb (bool_decide (Capture.ws c = CONNECTING)) = false) as E.
  { destruct Hfail as [->| ->]; [done|]. by rewrite andb_false_r. }
  assert (recorder_ok && bool_decide (Capture.ws c = OPEN) = false) as E'.
  { destruct Hfail as [->|Hws]; [done|]. rewrite Hws. by rewrite andb_false_r. }
  rewrite E in Ht, Hr, Hi. rewrite E' in Ho. rewrite app_nil_r in Ho.
  split_and!; try done.
  - unfold Capture.device_held. rewrite Ht, existsb_snoc. by rewrite orb_false_r.
  - unfold Capture.streaming. rewrite Hr. destruct recorder_ok.
    + rewrite existsb_snoc. cbn. by rewrite orb_false_r.
    + by rewrite app_nil_r.
Qed.

Lemma failed_start_releases_stream_witness :
  Capture.device_held
    (Capture.step (Capture.run press) (Capture.Granted 0 false)) = false.
Proof.
  destruct (failed_start_releases_stream (Capture.run press) 0 (Capture.Num 250) false)
    as (_ & H & _).
  - reflexivity.
  - by left.
  - rewrite H. reflexivity.
Defined.

(** X15: in every reachable state of the client a stream with live tracks
    belongs to a recorder that is recording or has its [stop] event due;
    so once every recorder is inactive with no [stop] event due, no device
    is held. *)
Theorem live_stream_has_recorder evs :
  let c := Capture.run evs in
  (∀ s, Capture.tracks c !! s = Some true →
     ∃ r rec, Capture.recorders c !! r = Some rec ∧ Capture.stream rec = s ∧
              (Capture.state rec = Capture.recording ∨ Capture.stopping rec = true)) ∧
  ((∀ rec, rec ∈ Capture.recorders c →
      Capture.state rec = Capture.inactive ∧ Capture.stopping rec = false) →
   Capture.device_held c = false).
Proof.
  cbn zeta. pose proof (owned_run evs) as Hc. split; [exact Hc|].
  intros Hidle. unfold Capture.device_held.
  destruct (existsb id (Capture.tracks (Capture.run evs))) eqn:E; [|done].
  apply existsb_exists in E as (b & Hin & Hb). unfold id in Hb. subst b.
  apply list_elem_of_In, list_elem_of_lookup in Hin as [s Hs].
  destruct (Hc s Hs) as (r & rec & Hr & _ & Hact).
  destruct (Hidle rec) as [H1 H2]; [by eapply list_elem_of_lookup_2|].
  destruct Hact; congruence.
Qed.

Lemma live_stream_has_recorder_witness :
  Capture.device_held
    (Capture.run [Capture.Transport OPEN; Capture.StartIntent; Capture.Granted 0 true;
                  Capture.StopIntent; Capture.RecorderStop 0]) = false.
Proof.
  apply (live_stream_has_recorder
           [Capture.Transport OPEN; Capture.StartIntent; Capture.Granted 0 true;
            Capture.StopIntent; Capture.RecorderStop 0]).
  intros rec Hin. vm_compute in Hin.
  apply list_elem_of_singleton in Hin as ->. done.
Defined.

(** X16: whatever the configured value, [recorder.start] is given a number
    of at least 50, never NaN, and the advertised [timeSliceMs] is never 0
    or NaN. *)
Theorem interval_is_at_least_50 n :
  (∃ z, Capture.start_interval n = Capture.Num z ∧ (50 ≤ z)%Z) ∧
  Capture.truthy (Capture.timeSliceMs n) = true.
Proof.
  unfold Capture.start_interval, Capture.timeSliceMs, Capture.or_else.
  destruct (Capture.truthy n) eqn:E.
  - destruct n as [|z]; [done|]. cbn. split; [|done].
    eexists. split; [done|lia].
  - cbn. split; [|done]. eexists. split; [done|lia].
Qed.

Section CaptureSends.

Import Capture.

Lemma step_outbox c ev :
  outbox (step c ev) = outbox c ∨
  (ws c = OPEN ∧
   ((∃ k n, ev = Granted k true ∧ acquiring c !! k = Some n ∧
            outbox (step c ev) = outbox c ++ [AudioConfig (timeSliceMs n)]) ∨
    (∃ r rec data, ev = DataAvailable r data ∧ data ≠ [] ∧
            recorders c !! r = Some rec ∧
            (state rec = recording ∨ stopping rec = true) ∧
            outbox (step c ev) = outbox c ++ [Chunk data]))).
Proof.
  destruct ev as [| |k ok|k|r data|r|r|st|n]; cbn [step].
  - left. unfold startRecording. destruct (isRecording c); [done|]. by case_decide.
  - left. unfold stopRecording. destruct (active_recorder c) as [[r rec]|]; [done|].
    by destruct (streamRef c).
  - destruct (acquiring c !! k) as [n|] eqn:Hk; [|left; unfold granted; by rewrite Hk].
    destruct (granted_effect c k n ok Hk) as (_ & _ & Ho & _).
    destruct ok; cbn [andb] in Ho; [|left; by rewrite Ho, app_nil_r].
    case_bool_decide as Hws; [|left; by rewrite Ho, app_nil_r].
    right. split; [done|]. left. eauto.
  - by left.
  - destruct (recorders c !! r) as [rec|] eqn:Hr; [|by left].
    case_decide as Hact; [|by left]. unfold ondataavailable.
    case_decide as Hd; [by left|]. case_decide as Hws; [|by left].
    right. split; [done|]. right. exists r, rec, data.
    split_and!; try done.
    + intros ->. done.
    + unfold ws_send. by rewrite Hws.
  - left. destruct (recorders c !! r) as [rec|]; [|done]. by destruct (stopping rec).
  - left. destruct (recorders c !! r) as [rec|]; [|done]. by case_decide.
  - by left.
  - by left.
Qed.

End CaptureSends.

(** X17: an event of the client sends at most one message, and only while
    the socket is open: the [audio-config] of a grant, or the data of a
    recorder that records or is being stopped, and then never an empty
    chunk.  So no run ever sends an empty chunk. *)
Theorem client_sends_only_when_open :
  (∀ c ev,
     Capture.outbox (Capture.step c ev) = Capture.outbox c ∨
     (Capture.ws c = OPEN ∧
      ∃ m, Capture.outbox (Capture.step c ev) = Capture.outbox c ++ [m] ∧
           m ≠ Capture.Chunk [])) ∧
  (∀ evs, [] ∉ Capture.chunks (Capture.run evs)).
Proof.
  assert (∀ c ev,
     Capture.outbox (Capture.step c ev) = Capture.outbox c ∨
     (Capture.ws c = OPEN ∧
      ∃ m, Capture.outbox (Capture.step c ev) = Capture.outbox c ++ [m] ∧
           m ≠ Capture.Chunk [])) as Hstep.
  { intros c ev.
    destruct (step_outbox c ev)
      as [E|[Hws [(k & n & _ & _ & E)|(r & rec & data & _ & Hd & _ & _ & E)]]];
      [by left| |]; right; (split; [done|]); eexists; (split; [exact E|]).
    - done.
    - intros [= ->]. done. }
  split; [exact Hstep|].
  intros evs. induction evs as [|ev evs IH] using rev_ind.
  - by intros ?%elem_of_nil.
  - rewrite capture_run_snoc. unfold Capture.chunks in *.
    destruct (Hstep (Capture.run evs) ev) as [->|(_ & m & -> & Hm)]; [done|].
    rewrite omap_app. intros [Hin|Hin]%elem_of_app; [done|].
    destruct m as [t|d]; cbn in Hin; [by apply elem_of_nil in Hin|].
    apply list_elem_of_singleton in Hin as <-. done.
Qed.

(** * Further properties of the relay: what one connection can do to others *)

Lemma join_back readyState c room st d :
  consistent st → d ≠ c →
  socketToRoom (final (joinRoom readyState c room st)) !! d = socketToRoom st !! d.
Proof.
  intros Hst Hd.
  destruct room as [[| | |s| |]|];
    try (by rewrite joinRoom_throws);
    try (by rewrite joinRoom_invalid by eauto).
  destruct (decide (trim s = ""%string)) as [E|E];
    [by rewrite joinRoom_invalid by eauto|].
  rewrite joinRoom_string by done. cbn zeta.
  case_decide; cbn [final socketToRoom];
    rewrite ?lookup_insert_ne by done; rewrite leave_back by done;
    by rewrite lookup_delete_ne.
Qed.

(** X18: the handler of an event of one socket never changes the room of
    another socket: every other socket has the same back reference, and is
    a member of the same room, before and after. *)
Theorem others_keep_their_room JSON_parse evs ev d :
  d ≠ socket_of ev →
  let st := after JSON_parse evs in
  let st' := after JSON_parse (evs ++ [ev]) in
  socketToRoom st' !! d = socketToRoom st !! d ∧
  (∀ R, (∃ m, rooms st' !! R = Some m ∧ d ∈ m) ↔ (∃ m, rooms st !! R = Some m ∧ d ∈ m)).
Proof.
  cbn zeta. intros Hd.
  pose proof (consistent_after JSON_parse evs) as Hst.
  pose proof (consistent_after JSON_parse (evs ++ [ev])) as Hst'.
  assert (socketToRoom (after JSON_parse (evs ++ [ev])) !! d
          = socketToRoom (after JSON_parse evs) !! d) as E.
  { rewrite after_snoc. set (st := after JSON_parse evs) in *.
    destruct ev as [rs c data isBinary|rs c]; cbn [handle socket_of] in *.
    - destruct (on_message_cases rs JSON_parse c data isBinary st)
        as [E|[[room E]|E]]; rewrite E; cbn [final].
      + by rewrite (proj2 (broadcastToRoom_pure rs c data isBinary st)).
      + by apply join_back.
      + rewrite leave_back by done. by rewrite lookup_delete_ne.
    - rewrite on_close_run. cbn [final]. rewrite leave_back by done.
      by rewrite lookup_delete_ne. }
  split; [exact E|]. intros R. split; intros (m & Hm & Hin).
  - apply (back_rooms _ Hst). rewrite <- E. by eapply (rooms_back _ Hst').
  - apply (back_rooms _ Hst'). rewrite E. by eapply (rooms_back _ Hst).
Qed.

Lemma others_keep_their_room_witness :
  socketToRoom
    (after JsonText.JSON_parse (two_in_abc ++ [Close all_open 1])) !! 2
  = Some "abc"%string.
Proof.
  destruct (others_keep_their_room JsonText.JSON_parse two_in_abc (Close all_open 1) 2)
    as [H _]; [discriminate|].
  etrans; [exact H|]. vm_compute. reflexivity.
Defined.

(** X19: [joinRoom] sends the [room-full] error only to the joiner, and
    only when the room it asked for holds two members and the joiner is
    none of them. *)
Theorem room_full_only_when_full JSON_parse evs readyState c room to :
  let st := after JSON_parse evs in
  (to, Json (ErrorMsg "room-full" "Room is full."))
    ∈ sends (joinRoom readyState c room st) →
  to = c ∧
  ∃ s m, room = Some (JStr s) ∧ rooms st !! trim s = Some m ∧
         length m = 2 ∧ c ∉ m.
Proof.
  cbn zeta. pose proof (consistent_after JSON_parse evs) as Hst.
  set (st := after JSON_parse evs) in *.
  assert (Hleave : ∀ f, (to, f) ∈ sends (leaveRoom readyState c st) →
                        ∃ R n l, f = Json (RoomState R n l)).
  { intros f. rewrite leave_sends by done.
    destruct (socketToRoom st !! c); [|by intros ?%elem_of_nil].
    cbn zeta. intros (_ & _ & ->)%elem_of_deliveries. eauto. }
  destruct room as [[| | |s| |]|];
    try (rewrite joinRoom_throws by done; by intros ?%elem_of_nil);
    try (rewrite joinRoom_invalid by eauto; cbn [sends];
         by intros (_ & _ & [=])%elem_of_deliveries).
  destruct (decide (trim s = ""%string)) as [E|E].
  { rewrite joinRoom_invalid by eauto. cbn [sends].
    by intros (_ & _ & [=])%elem_of_deliveries. }
  destruct (decide (ROOM_LIMIT ≤ length (peers_of c st (trim s)))) as [Hfull|Hfree].
  - rewrite join_refused by done. cbn [sends].
    intros [Hin|Hin]%elem_of_app.
    + by destruct (Hleave _ Hin) as (? & ? & ? & [=]).
    + apply elem_of_deliveries in Hin as (->%list_elem_of_singleton & _ & _).
      split; [done|]. unfold peers_of in Hfull.
      destruct (rooms st !! trim s) as [m|] eqn:Hm; cbn [from_option id] in Hfull.
      * pose proof (rooms_size _ Hst _ _ Hm) as Hsz.
        pose proof (rooms_nodup _ Hst _ _ Hm) as Hnd.
        assert (c ∉ m) as Hc.
        { intros Hc. pose proof (length_Set_delete c m Hnd Hc). lia. }
        rewrite Set_delete_absent in Hfull by done.
        exists s, m. unfold ROOM_LIMIT in *. split_and!; [done|done|lia|done].
      * unfold Set_delete, ROOM_LIMIT in Hfull. rewrite filter_nil in Hfull.
        cbn in Hfull. lia.
  - rewrite join_accepted by (done || lia). cbn zeta. cbn [sends].
    intros [Hin|Hin]%elem_of_app.
    + by destruct (Hleave _ Hin) as (? & ? & ? & [=]).
    + by apply elem_of_deliveries in Hin as (_ & _ & [=]).
Qed.

Lemma room_full_only_when_full_witness :
  3 = 3 ∧
  ∃ s m, Some (JStr "abc") = Some (JStr s) ∧
         rooms (after JsonText.JSON_parse two_in_abc) !! trim s = Some m ∧
         length m = 2 ∧ 3 ∉ m.
Proof.
  apply (room_full_only_when_full JsonText.JSON_parse two_in_abc all_open 3
           (Some (JStr "abc")) 3).
  vm_compute. apply list_elem_of_here.
Defined.

(** X20: an error frame is sent only to the socket whose message is being
    handled, and it is [invalid-room] or [room-full]; a frame relayed to
    another socket is always the frame received, with its binary flag. *)
Theorem errors_go_to_the_sender JSON_parse evs readyState c data isBinary to f :
  let st := after JSON_parse evs in
  (to, f) ∈ sends (on_message readyState JSON_parse c data isBinary st) →
  match f with
  | Json (ErrorMsg code message) =>
      to = c ∧ (Json (ErrorMsg code message) = Json invalid_room ∨
                Json (ErrorMsg code message) = Json room_full)
  | Json (RoomState R n limit) => limit = 2
  | Raw d b => to ≠ c ∧ d = data ∧ b = isBinary
  end.
Proof.
  cbn zeta. pose proof (consistent_after JSON_parse evs) as Hst.
  set (st := after JSON_parse evs) in *.
  assert (Hleave : ∀ f, (to, f) ∈ sends (leaveRoom readyState c st) →
                        ∃ R n, f = Json (RoomState R n 2)).
  { intros g. rewrite leave_sends by done.
    destruct (socketToRoom st !! c); [|by intros ?%elem_of_nil].
    cbn zeta. intros (_ & _ & ->)%elem_of_deliveries. eauto. }
  assert (Hrelay : ∀ b, (to, f) ∈ sends (broadcastToRoom readyState c data b st) →
                        f = Raw data b ∧ to ≠ c).
  { intros b Hin. apply relay_recipients in Hin; [tauto|done]. }
  destruct (on_message_cases readyState JSON_parse c data isBinary st)
    as [E|[[room E]|E]]; rewrite E; cbn [sends]; intros Hin.
  - destruct (Hrelay _ Hin) as [-> ?]. tauto.
  - destruct room as [[| | |s| |]|];
      try (rewrite joinRoom_throws in Hin by done; by apply elem_of_nil in Hin);
      try (rewrite joinRoom_invalid in Hin by eauto; cbn [sends] in Hin;
           apply elem_of_deliveries in Hin as (->%list_elem_of_singleton & _ & ->);
           split; [done|by left]).
    destruct (decide (trim s = ""%string)) as [Et|Et].
    { rewrite joinRoom_invalid in Hin by eauto. cbn [sends] in Hin.
      apply elem_of_deliveries in Hin as (->%list_elem_of_singleton & _ & ->).
      split; [done|by left]. }
    rewrite joinRoom_string in Hin by done. cbn zeta in Hin.
    case_decide; cbn [sends] in Hin; apply elem_of_app in Hin as [Hin|Hin];
      try (by destruct (Hleave _ Hin) as (? & ? & ->)).
    + apply elem_of_deliveries in Hin as (->%list_elem_of_singleton & _ & ->).
      split; [done|by right].
    + by apply elem_of_deliveries in Hin as (_ & _ & ->).
  - by destruct (Hleave _ Hin) as (? & ? & ->).
Qed.

Lemma errors_go_to_the_sender_witness :
  3 = 3 ∧ (Json (ErrorMsg "room-full" "Room is full.") = Json invalid_room ∨
           Json (ErrorMsg "room-full" "Room is full.") = Json room_full).
Proof.
  apply (errors_go_to_the_sender JsonText.JSON_parse two_in_abc all_open 3
           (join_text "abc") false 3 (Json (ErrorMsg "room-full" "Room is full."))).
  vm_compute. apply list_elem_of_here.
Defined.

Lemma client_sends_only_when_open_witness :
  Capture.outbox (Capture.step (Capture.run press) (Capture.Granted 0 true))
  = Capture.outbox (Capture.run press) ∨
  (Capture.ws (Capture.run press) = OPEN ∧
   ∃ m, Capture.outbox (Capture.step (Capture.run press) (Capture.Granted 0 true))
        = Capture.outbox (Capture.run press) ++ [m] ∧
        m ≠ Capture.Chunk []).
Proof.
  exact (proj1 client_sends_only_when_open (Capture.run press) (Capture.Granted 0 true)).
Defined.
